(** * Grid motion planning: occupancy grid, action model, cost search

    A shallow embedding of the planning notebooks of Course02:
    - [create_grid] (Configuration-Space): rasterises obstacle prisms into a
      2-D occupancy grid at a fixed altitude, with a safety margin;
    - [Action], [valid_actions], [uniform_cost] (Uniform Cost Search): the
      8-connected move set, the per-cell filter of legal moves, and the
      queue-driven search with its path reconstruction.

    Numbers that are [np.float64] in the notebooks are binary64 floats
    here ([PrimFloat]); so are the path costs, which Python keeps as
    integers until the first diagonal move (the two agree on integers
    below [2^53]).  Grid indices and cell coordinates are [Z]; grid cells
    hold the integers 0 and 1; the [visited] set and the [branch]
    dictionary are stdpp finite sets and maps.  Python exceptions are the
    [Raise] outcome of a small error monad, and the two [while] loops take
    fuel. *)

From Stdlib Require Import ZArith Lia List Bool.
From Stdlib Require Import Strings.String.
From Stdlib Require Import Floats.PrimFloat Floats.FloatOps Floats.SpecFloat
  Floats.FloatAxioms.
From Stdlib Require Import Uint63.
From stdpp Require Import base decidable option list gmap sets relations.

Local Open Scope Z_scope.

(** ** Outcomes of Python code *)

Inductive exn := IndexError | KeyError | ValueError | OverflowError.

Inductive result (A : Type) : Type :=
  | Return (a : A)
  | Raise (e : exn)
  | OutOfFuel.
Arguments Return {A} a.
Arguments Raise {A} e.
Arguments OutOfFuel {A}.

Global Instance result_bind : MBind result := λ A B k r,
  match r with
  | Return a => k a
  | Raise e => Raise e
  | OutOfFuel => OutOfFuel
  end.

(** ** Arrays *)

(** A 2-D [ndarray] as its rows.  An ndarray is rectangular, so its second
    dimension is the length of any row; we read it off the first one. *)
Abbreviation ndarray := (list (list Z)).

Definition shape0 (grid : ndarray) : Z := Z.of_nat (length grid).
Definition shape1 (grid : ndarray) : Z := Z.of_nat (length (hd [] grid)).

(** numpy integer indexing along one axis: [-size <= i < 0] counts from the
    end, anything else outside [0, size) raises [IndexError]. *)
Definition np_index (size i : Z) : result nat :=
  if (0 <=? i) && (i <? size) then Return (Z.to_nat i)
  else if (- size <=? i) && (i <? 0) then Return (Z.to_nat (i + size))
  else Raise IndexError.

(** [grid[i, j]] *)
Definition getitem (grid : ndarray) (i j : Z) : result Z :=
  r ← np_index (shape0 grid) i ;
  c ← np_index (shape1 grid) j ;
  Return (nth c (nth r grid []) 0).

(** ** Floating-point helpers *)

(** The float of a small integer (exact below [2^53]). *)
Definition float_of_Z (z : Z) : float :=
  if z <? 0 then PrimFloat.opp (of_uint63 (Uint63.of_Z (- z)))
  else of_uint63 (Uint63.of_Z z).

(** [np.floor]: a float with a negative binary exponent has a fractional
    part and a magnitude below [2^52]; every other float (zeros, integers,
    infinities, NaN) is returned as it is. *)
Definition np_floor (x : float) : float :=
  match Prim2SF x with
  | S754_finite s m e =>
      if e <? 0 then
        float_of_Z ((if s then Z.neg m else Z.pos m) / 2 ^ (- e))
      else x
  | _ => x
  end.

(** [np.ceil] *)
Definition np_ceil (x : float) : float :=
  PrimFloat.opp (np_floor (PrimFloat.opp x)).

(** [int(x)]: truncation; [ValueError] on NaN, [OverflowError] on an
    infinity. *)
Definition int_of_float (x : float) : result Z :=
  match Prim2SF x with
  | S754_zero _ => Return 0
  | S754_finite s m e =>
      let v := if s then Z.neg m else Z.pos m in
      Return (if e <? 0 then Z.quot v (2 ^ (- e)) else v * 2 ^ e)
  | S754_infinity _ => Raise OverflowError
  | S754_nan => Raise ValueError
  end.

(** [np.minimum] and [np.maximum] of two floats: a NaN wins. *)
Definition np_minimum (a b : float) : float :=
  if is_nan a then a else if is_nan b then b
  else if (b <? a)%float then b else a.

Definition np_maximum (a b : float) : float :=
  if is_nan a then a else if is_nan b then b
  else if (a <? b)%float then b else a.

(** [np.amin] and [np.amax] of a 1-D array; empty arrays raise. *)
Definition np_amin (l : list float) : result float :=
  match l with
  | [] => Raise ValueError
  | x :: l' => Return (fold_left np_minimum l' x)
  end.

Definition np_amax (l : list float) : result float :=
  match l with
  | [] => Raise ValueError
  | x :: l' => Return (fold_left np_maximum l' x)
  end.

(** ** The occupancy grid *)

(** One row of the obstacle table, under the names [create_grid] unpacks
    it to. *)
Record Obstacle := {
  north : float; east : float; alt : float;
  d_north : float; d_east : float; d_alt : float
}.

(** [np.zeros((n, m))].  The array holds the floats 0.0 and, once painted,
    1.0; they are kept as the integers 0 and 1, which is what
    [valid_actions] compares them with. *)
Definition np_zeros (n m : Z) : result ndarray :=
  if (n <? 0) || (m <? 0) then Raise ValueError
  else Return (replicate (Z.to_nat n) (replicate (Z.to_nat m) 0)).

(** A slice bound against an axis of length [n]: negative bounds count
    from the end, and everything is clipped to [0, n]. *)
Definition slice_index (i n : Z) : Z :=
  if i <? 0 then Z.max (i + n) 0 else Z.min i n.

(** [grid[r0:r1, c0:c1] = 1] on an array of shape [(n, m)]. *)
Definition assign_one (n m : Z) (grid : ndarray) (r0 r1 c0 c1 : Z) : ndarray :=
  let r0 := slice_index r0 n in let r1 := slice_index r1 n in
  let c0 := slice_index c0 m in let c1 := slice_index c1 m in
  imap (λ i row,
    if (r0 <=? Z.of_nat i) && (Z.of_nat i <? r1) then
      imap (λ j v, if (c0 <=? Z.of_nat j) && (Z.of_nat j <? c1) then 1 else v) row
    else row) grid.

(** The altitude test of the loop body. *)
Definition in_altitude_band (o : Obstacle) (drone_altitude safety_distance : float)
  : bool :=
  (alt o - d_alt o - safety_distance <? drone_altitude)%float
  && (drone_altitude <? alt o + d_alt o + safety_distance)%float.

(** The list [obstacle] of the loop body. *)
Definition footprint (north_min east_min : float) (north_size east_size : Z)
    (safety_distance : float) (o : Obstacle) : result (Z * Z * Z * Z) :=
  a ← int_of_float (np_floor (north o - d_north o - safety_distance - north_min)%float);
  b ← int_of_float (np_ceil (north o + d_north o + safety_distance - north_min)%float);
  c ← int_of_float (np_floor (east o - d_east o - safety_distance - east_min)%float);
  d ← int_of_float (np_ceil (east o + d_east o + safety_distance - east_min)%float);
  Return (Z.max 0 a, Z.min north_size b, Z.max 0 c, Z.min east_size d).

(** Body of [for i in range(data.shape[0])]. *)
Definition populate (north_min east_min : float) (north_size east_size : Z)
    (drone_altitude safety_distance : float) (grid : ndarray) (o : Obstacle)
  : result ndarray :=
  if in_altitude_band o drone_altitude safety_distance then
    '(o0, o1, o2, o3) ← footprint north_min east_min north_size east_size
                          safety_distance o;
    Return (assign_one north_size east_size grid o0 (o1 + 1) o2 (o3 + 1))
  else Return grid.

Fixpoint for_each {A B} (body : B → A → result B) (l : list A) (acc : B)
  : result B :=
  match l with
  | [] => Return acc
  | x :: l' => acc' ← body acc x; for_each body l' acc'
  end.

Definition create_grid (data : list Obstacle)
    (drone_altitude safety_distance : float) : result ndarray :=
  lo ← np_amin (map (λ o, north o - d_north o)%float data);
  let north_min := np_floor lo in
  hi ← np_amax (map (λ o, north o + d_north o)%float data);
  let north_max := np_ceil hi in
  lo ← np_amin (map (λ o, east o - d_east o)%float data);
  let east_min := np_floor lo in
  hi ← np_amax (map (λ o, east o + d_east o)%float data);
  let east_max := np_ceil hi in
  north_size ← int_of_float (np_ceil (north_max - north_min)%float);
  east_size ← int_of_float (np_ceil (east_max - east_min)%float);
  grid ← np_zeros north_size east_size;
  north_min_center ← np_amin (map north data);
  east_min_center ← np_amin (map east data);
  for_each (populate north_min east_min north_size east_size
              drone_altitude safety_distance) data grid.

(** The obstacle of the notebook's introduction. *)
Definition example_obstacle : Obstacle :=
  {| north := 37; east := 12; alt := 8; d_north := 5; d_east := 5; d_alt := 8 |}.

(** ** Actions *)

Abbreviation Cell := (Z * Z)%type.

Inductive Action :=
  | LEFT | RIGHT | UP | DOWN
  | UP_LEFL | UP_RIGHT | DOWN_LEFT | DOWN_RIGHT.

Global Instance Action_eq_dec : EqDecision Action.
Proof. solve_decision. Defined.

Definition sqrt2 : float := PrimFloat.sqrt 2%float.

(** The enum values: row delta, column delta, cost. *)
Definition value (a : Action) : Z * Z * float :=
  match a with
  | LEFT => (0, -1, 1%float)
  | RIGHT => (0, 1, 1%float)
  | UP => (-1, 0, 1%float)
  | DOWN => (1, 0, 1%float)
  | UP_LEFL => (-1, -1, sqrt2)
  | UP_RIGHT => (-1, 1, sqrt2)
  | DOWN_LEFT => (1, -1, sqrt2)
  | DOWN_RIGHT => (1, 1, sqrt2)
  end.

Definition cost (a : Action) : float := (value a).2.
Definition delta (a : Action) : Z * Z := ((value a).1.1, (value a).1.2).

(** [list.remove(x)]: drops the first occurrence, [ValueError] if none. *)
Fixpoint list_remove (a : Action) (l : list Action) : result (list Action) :=
  match l with
  | [] => Raise ValueError
  | b :: l' => if decide (b = a) then Return l'
               else (r ← list_remove a l' ; Return (b :: r))
  end.

(** [c1 or c2] with Python's short circuit: [c2] is not evaluated (and
    cannot raise) when [c1] holds. *)
Definition por (c1 : bool) (c2 : result bool) : result bool :=
  if c1 then Return true else c2.

(** [grid[i, j] == 1] *)
Definition is_obstacle (grid : ndarray) (i j : Z) : result bool :=
  v ← getitem grid i j ; Return (v =? 1).

(** [if c: valid.remove(a)] *)
Definition remove_if (c : result bool) (a : Action) (valid : list Action)
  : result (list Action) :=
  b ← c ; if (b : bool) then list_remove a valid else Return valid.

Definition all_actions : list Action :=
  [UP; LEFT; RIGHT; DOWN; UP_LEFL; UP_RIGHT; DOWN_LEFT; DOWN_RIGHT].

Definition valid_actions (grid : ndarray) (current_node : Cell)
  : result (list Action) :=
  let valid := all_actions in
  let n := shape0 grid - 1 in
  let m := shape1 grid - 1 in
  let '(x, y) := current_node in
  valid ← remove_if (por (x - 1 <? 0) (is_obstacle grid (x - 1) y)) UP valid ;
  valid ← remove_if (por (n <? x + 1) (is_obstacle grid (x + 1) y)) DOWN valid ;
  valid ← remove_if (por (y - 1 <? 0) (is_obstacle grid x (y - 1))) LEFT valid ;
  valid ← remove_if (por (m <? y + 1) (is_obstacle grid x (y + 1))) RIGHT valid ;
  valid ← remove_if (por (x - 1 <? 0) (por (y - 1 <? 0)
             (is_obstacle grid (x - 1) (y - 1)))) UP_LEFL valid ;
  valid ← remove_if (por (x - 1 <? 0) (por (m <? y + 1)
             (is_obstacle grid (x - 1) (y + 1)))) UP_RIGHT valid ;
  valid ← remove_if (por (n <? x + 1) (por (y - 1 <? 0)
             (is_obstacle grid (x + 1) (y - 1)))) DOWN_LEFT valid ;
  valid ← remove_if (por (n <? x + 1) (por (m <? y + 1)
             (is_obstacle grid (x + 1) (y + 1)))) DOWN_RIGHT valid ;
  Return valid.

(** ** The search *)

(** A [branch] entry: [(new_cost, current_node, action)]. *)
Abbreviation Entry := (float * Cell * Action)%type.

(** The mutable state of the [while] loop.  [visited] is a Python set that
    holds whatever was put in it: integers ([inl]) and cells ([inr]). *)
Record state := State {
  queue : list (Cell * float);
  visited : gset (Z + Cell);
  branch : gmap Cell Entry
}.

(** [set(start)]: the set built from the ITEMS of the tuple [start]. *)
Definition set_of_tuple (t : Cell) : gset (Z + Cell) :=
  {[ inl t.1 ]} ∪ {[ inl t.2 ]}.

Definition move (c : Cell) (a : Action) : Cell :=
  (c.1 + (delta a).1, c.2 + (delta a).2).

(** Body of [for action in valid_actions(grid, current_node)]. *)
Definition visit (current_node : Cell) (current_cost : float)
    (st : state) (action : Action) : state :=
  let next_node := move current_node action in
  let new_cost := (current_cost + cost action)%float in
  if decide (inr next_node ∈ visited st) then st
  else {| visited := {[ inr next_node ]} ∪ visited st;
          queue := queue st ++ [(next_node, new_cost)];
          branch := <[ next_node := (new_cost, current_node, action) ]> (branch st) |}.

(** [while not queue.empty()]: returns [found] and the final state. *)
Fixpoint search (fuel : nat) (grid : ndarray) (goal : Cell) (st : state)
  : result (bool * state) :=
  match fuel with
  | O => OutOfFuel
  | S fuel' =>
    match queue st with
    | [] => Return (false, st)
    | (current_node, current_cost) :: q =>
      let st' := {| queue := q; visited := visited st; branch := branch st |} in
      if decide (current_node = goal) then Return (true, st')
      else
        acts ← valid_actions grid current_node ;
        search fuel' grid goal (fold_left (visit current_node current_cost) acts st')
    end
  end.

(** [branch[n]] *)
Definition branch_get (br : gmap Cell Entry) (n : Cell) : result Entry :=
  match br !! n with
  | Some e => Return e
  | None => Raise KeyError
  end.

(** The retrace loop, followed by the final [path.append]. *)
Fixpoint retrace (fuel : nat) (br : gmap Cell Entry) (start n : Cell)
    (path : list Action) : result (list Action) :=
  match fuel with
  | O => OutOfFuel
  | S fuel' =>
    '(_, parent, action) ← branch_get br n ;
    if decide (parent ≠ start) then retrace fuel' br start parent (path ++ [action])
    else Return (path ++ [action])
  end.

Definition init (start : Cell) : state :=
  {| queue := [(start, 0%float)]; visited := set_of_tuple start; branch := ∅ |}.

Definition uniform_cost (fuel : nat) (grid : ndarray) (start goal : Cell)
  : result (list Action * float) :=
  '(found, st) ← search fuel grid goal (init start) ;
  if (found : bool) then
    '(path_cost, _, _) ← branch_get (branch st) goal ;
    path ← retrace fuel (branch st) start goal [] ;
    Return (rev path, path_cost)
  else Return ([], 0%float).

Definition example_grid : ndarray :=
  [ [0; 1; 0; 0; 0; 0];
    [0; 1; 0; 1; 0; 0];
    [0; 1; 0; 0; 0; 0];
    [0; 1; 0; 0; 1; 0];
    [0; 0; 0; 1; 0; 0] ].

(** ** Notions used to state the properties of the action model *)

Definition in_bounds (grid : ndarray) (c : Cell) : Prop :=
  0 ≤ c.1 < shape0 grid ∧ 0 ≤ c.2 < shape1 grid.

(** The stored value at an in-range cell. *)
Definition cell_at (grid : ndarray) (c : Cell) : Z :=
  nth (Z.to_nat c.2) (nth (Z.to_nat c.1) grid []) 0.

(** The destination of [a] from [c] is on the grid and does not hold 1. *)
Definition free_dest (grid : ndarray) (c : Cell) (a : Action) : bool :=
  let d := move c a in
  (0 <=? d.1) && (d.1 <? shape0 grid) && (0 <=? d.2) && (d.2 <? shape1 grid)
  && negb (cell_at grid d =? 1).

(** Every cell of the grid holds 0 or 1. *)
Definition binary (grid : ndarray) : Prop :=
  Forall (Forall (λ v, v = 0 ∨ v = 1)) grid.

(** The order the spec gives for the initial candidate list. *)
Definition spec_order : list Action :=
  [UP; DOWN; LEFT; RIGHT; UP_LEFL; UP_RIGHT; DOWN_LEFT; DOWN_RIGHT].

Definition open_grid : ndarray := [ [0; 0; 0]; [0; 0; 0]; [0; 0; 0] ].

(** The example grid with an obstacle put on the free cell (2,2). *)
Definition example_grid_blocked : ndarray :=
  [ [0; 1; 0; 0; 0; 0];
    [0; 1; 0; 1; 0; 0];
    [0; 1; 1; 0; 0; 0];
    [0; 1; 0; 0; 1; 0];
    [0; 0; 0; 1; 0; 0] ].

(** A free cell (2,2) whose eight neighbours are all obstacles. *)
Definition enclosed_grid : ndarray :=
  [ [0; 0; 0; 0; 0];
    [0; 1; 1; 1; 0];
    [0; 1; 0; 1; 0];
    [0; 1; 1; 1; 0];
    [0; 0; 0; 0; 0] ].

(** ** Notions used to state the properties of the occupancy grid *)

(** [grid] has [n] rows of [m] cells. *)
Definition has_shape (n m : Z) (grid : ndarray) : Prop :=
  length grid = Z.to_nat n ∧ Forall (λ row, length row = Z.to_nat m) grid.

(** The offsets and sizes [create_grid] computes before it allocates the
    grid: [(north_min, east_min, north_size, east_size)]. *)
Definition grid_frame (data : list Obstacle) : result (float * float * Z * Z) :=
  lo ← np_amin (map (λ o, north o - d_north o)%float data);
  let north_min := np_floor lo in
  hi ← np_amax (map (λ o, north o + d_north o)%float data);
  let north_max := np_ceil hi in
  lo ← np_amin (map (λ o, east o - d_east o)%float data);
  let east_min := np_floor lo in
  hi ← np_amax (map (λ o, east o + d_east o)%float data);
  let east_max := np_ceil hi in
  north_size ← int_of_float (np_ceil (north_max - north_min)%float);
  east_size ← int_of_float (np_ceil (east_max - east_min)%float);
  Return (north_min, east_min, north_size, east_size).

(** The cell [(i, j)] lies in the slice assigned for obstacle [o]. *)
Definition covers (north_min east_min : float) (north_size east_size : Z)
    (safety_distance : float) (o : Obstacle) (i j : Z) : Prop :=
  ∃ o0 o1 o2 o3,
    footprint north_min east_min north_size east_size safety_distance o
      = Return (o0, o1, o2, o3)
    ∧ slice_index o0 north_size ≤ i < slice_index (o1 + 1) north_size
    ∧ slice_index o2 east_size ≤ j < slice_index (o3 + 1) east_size.

(** ** Notions used to state the properties of the search *)

(** [a] is among the actions [valid_actions] returns at [c]. *)
Definition is_valid (grid : ndarray) (c : Cell) (a : Action) : Prop :=
  ∃ acts, valid_actions grid c = Return acts ∧ a ∈ acts.

(** [walk grid s path n]: taking the actions of [path] in order from [s]
    ends at [n], and each one was a valid action where it was taken. *)
Inductive walk (grid : ndarray) (s : Cell) : list Action → Cell → Prop :=
  | walk_nil : walk grid s [] s
  | walk_snoc path n a :
      walk grid s path n → is_valid grid n a →
      walk grid s (path ++ [a]) (move n a).

(** Left-to-right sum of the costs along a path, from the integer 0 the
    search starts with. *)
Definition path_cost_sum (path : list Action) : float :=
  fold_left (λ acc a, (acc + cost a)%float) path 0%float.

(** [traced grid br start n path c]: following the parent links of the
    dictionary [br] from [n] reaches an entry whose parent is [start];
    [path] lists the recorded actions from [start] to [n] and [c] is the
    cost recorded for [n]. *)
Inductive traced (grid : ndarray) (br : gmap Cell Entry) (start : Cell)
  : Cell → list Action → float → Prop :=
  | traced_first n a c :
      br !! n = Some (c, start, a) → is_valid grid start a →
      n = move start a → c = (0 + cost a)%float →
      traced grid br start n [a] c
  | traced_step n p a c path cp :
      br !! n = Some (c, p, a) → p ≠ start →
      traced grid br start p path cp → is_valid grid p a →
      n = move p a → c = (cp + cost a)%float →
      traced grid br start n (path ++ [a]) c.

(** One move to an 8-neighbour that is on the grid and not an obstacle. *)
Definition free_step (grid : ndarray) (a b : Cell) : Prop :=
  ∃ dr dc, -1 ≤ dr ≤ 1 ∧ -1 ≤ dc ≤ 1 ∧ (dr, dc) ≠ (0, 0) ∧
    b = (a.1 + dr, a.2 + dc) ∧ in_bounds grid b ∧ cell_at grid b ≠ 1.

(** Reachability through free 8-connected cells. *)
Definition reachable (grid : ndarray) : Cell → Cell → Prop :=
  rtc (free_step grid).

(** The state a finished run of the loop ends in. *)
Definition final_state (r : result (bool * state)) : state :=
  match r with
  | Return (_, st) => st
  | _ => {| queue := []; visited := ∅; branch := ∅ |}
  end.

(** All cells of the grid, row by row. *)
Definition all_cells (grid : ndarray) : list Cell :=
  x ← seqZ 0 (shape0 grid); y ← seqZ 0 (shape1 grid); [(x, y)].

(** Termination measure of the search loop: pending queue items plus grid
    cells not yet marked. *)
Definition unvisited (grid : ndarray) (vis : gset (Z + Cell)) : nat :=
  length (filter (λ c, inr c ∉ vis) (all_cells grid)).

Definition measure (grid : ndarray) (st : state) : nat :=
  (length (queue st) + unvisited grid (visited st))%nat.

(** Loop invariant (from the second iteration on). *)
Record wf_state (grid : ndarray) (start : Cell) (st : state) : Prop := {
  wf_queue : ∀ n c, (n, c) ∈ queue st →
    in_bounds grid n ∧ ∃ path, traced grid (branch st) start n path c;
  wf_branch : ∀ k e, branch st !! k = Some e → inr k ∈ visited st
}.

(** What is known of the node being expanded: it is the initial queue item,
    or its cost is the one traced in [branch], or it was expanded before. *)
Definition source (grid : ndarray) (start : Cell) (st : state)
    (cur : Cell) (cc : float) : Prop :=
  (cur = start ∧ cc = 0%float)
  ∨ (cur ≠ start ∧ ∃ path, traced grid (branch st) start cur path cc)
  ∨ (∀ a, is_valid grid cur a → inr (move cur a) ∈ visited st).

(** ** Notions used to state the order of the search *)

(** Every valid move from [k] leads to a marked cell. *)
Definition closed (grid : ndarray) (st : state) (k : Cell) : Prop :=
  ∀ a, is_valid grid k a → inr (move k a) ∈ visited st.

(** The queue item [item] sits [d] recorded actions away from [start]. *)
Definition has_depth (grid : ndarray) (start : Cell) (st : state) (d : nat)
    (item : Cell * float) : Prop :=
  ∃ path, traced grid (branch st) start item.1 path item.2 ∧ length path = d.

(** No walk from [start] to a recorded cell is shorter than the recorded
    path to it. *)
Definition shortest (grid : ndarray) (start : Cell) (br : gmap Cell Entry)
  : Prop :=
  ∀ n path c p, traced grid br start n path c → n ≠ start →
    walk grid start p n → (length path ≤ length p)%nat.

(** Breadth-first invariant of the loop (from the second iteration on). *)
Record bfs_state (grid : ndarray) (start : Cell) (st : state) : Prop := {
  bfs_wf : wf_state grid start st;
  bfs_start : closed grid st start;
  bfs_settled : ∀ k, inr k ∈ visited st →
    in_bounds grid k ∧ ((∃ c, (k, c) ∈ queue st) ∨ closed grid st k);
  bfs_layers : ∃ d q1 q2, queue st = q1 ++ q2
    ∧ Forall (has_depth grid start st d) q1
    ∧ Forall (has_depth grid start st (S d)) q2;
  bfs_traced : ∀ k e, branch st !! k = Some e →
    ∃ path, traced grid (branch st) start k path e.1.1;
  bfs_min : shortest grid start (branch st)
}.

(** The cells a path goes through from [pos], both ends included. *)
Fixpoint trail (pos : Cell) (path : list Action) : list Cell :=
  match path with
  | [] => [pos]
  | a :: rest => pos :: trail (move pos a) rest
  end.

(** Every action of [path], taken in order from [pos], is valid where it
    is taken. *)
Fixpoint valid_from (grid : ndarray) (pos : Cell) (path : list Action) : Prop :=
  match path with
  | [] => True
  | a :: rest => is_valid grid pos a ∧ valid_from grid (move pos a) rest
  end.

(** The move that undoes [a]. *)
Definition opposite (a : Action) : Action :=
  match a with
  | LEFT => RIGHT | RIGHT => LEFT | UP => DOWN | DOWN => UP
  | UP_LEFL => DOWN_RIGHT | DOWN_RIGHT => UP_LEFL
  | UP_RIGHT => DOWN_LEFT | DOWN_LEFT => UP_RIGHT
  end.

(** A grid on which the path with the fewest actions is not the cheapest:
    a wall of two cells in the third row. *)
Definition detour_grid : ndarray :=
  [ [0; 0; 0; 0];
    [0; 0; 0; 0];
    [0; 1; 1; 0];
    [0; 0; 0; 0] ].

(** ** Rendering a path *)

(** [Action.__str__] (the arrows are kept as their UTF-8 bytes). *)
Definition str (a : Action) : string :=
  match a with
  | LEFT => "←"
  | RIGHT => "→"
  | UP => "↑"
  | DOWN => "↓"
  | UP_LEFL => "↖"
  | UP_RIGHT => "↗"
  | DOWN_LEFT => "↙"
  | DOWN_RIGHT => "↘"
  end%string.

(** [sgrid[i, j] = s] on an array of one-character strings; every string
    stored by [visualize_path] is one character long. *)
Definition str_setitem (sgrid : list (list string)) (i j : Z) (s : string)
  : result (list (list string)) :=
  r ← np_index (Z.of_nat (length sgrid)) i ;
  c ← np_index (Z.of_nat (length (hd [] sgrid))) j ;
  Return (<[ r := <[ c := s ]> (nth r sgrid []) ]> sgrid).

(** [for a in path]: returns the array and the final [pos]. *)
Fixpoint draw (sgrid : list (list string)) (pos : Cell) (path : list Action)
  : result (list (list string) * Cell) :=
  match path with
  | [] => Return (sgrid, pos)
  | a :: rest =>
      sgrid ← str_setitem sgrid pos.1 pos.2 (str a) ;
      draw sgrid (move pos a) rest
  end.

Definition visualize_path (grid : ndarray) (path : list Action) (start : Cell)
  : result (list (list string)) :=
  let sgrid := map (map (λ _, ""%string)) grid in
  let sgrid := map (map (λ _, " "%string)) sgrid in
  let sgrid :=
    zip_with (zip_with (λ v s, if v =? 1 then "O"%string else s)) grid sgrid in
  '(sgrid, pos) ← draw sgrid start path ;
  sgrid ← str_setitem sgrid pos.1 pos.2 "G" ;
  sgrid ← str_setitem sgrid start.1 start.2 "S" ;
  Return sgrid.

(** The string shown at a cell. *)
Definition glyph_at (sgrid : list (list string)) (c : Cell) : string :=
  nth (Z.to_nat c.2) (nth (Z.to_nat c.1) sgrid []) ""%string.

(** [l] has [n] rows of [m] entries. *)
Definition rect {A} (n m : nat) (l : list (list A)) : Prop :=
  length l = n ∧ Forall (λ row, length row = m) l.

(** The arrow last written at [c] by the loop, if any. *)
Fixpoint arrow_at (pos : Cell) (path : list Action) (c : Cell) : option string :=
  match path with
  | [] => None
  | a :: rest =>
      match arrow_at (move pos a) rest c with
      | Some s => Some s
      | None => if decide (pos = c) then Some (str a) else None
      end
  end.

(** A row or column index numpy accepts on an axis of length [n]. *)
Definition indexable (n i : Z) : Prop := - n ≤ i < n.

(** ** Collinearity of three integer points *)

(** The value an [int64] operation stores: the result reduced to
    [[-2^63, 2^63)]. *)
Definition wrap64 (z : Z) : Z := (z + 2 ^ 63) mod 2 ^ 64 - 2 ^ 63.

(** [p[i]] on a 1-D array. *)
Definition item (p : list Z) (i : Z) : result Z :=
  k ← np_index (Z.of_nat (length p)) i ; Return (nth k p 0).

Definition collinearity_2D (p1 p2 p3 : list Z) : result bool :=
  a ← item p1 0 ; b ← item p2 1 ; c ← item p3 1 ;
  let t1 := wrap64 (a * wrap64 (b - c)) in
  a ← item p2 0 ; b ← item p3 1 ; c ← item p1 1 ;
  let t2 := wrap64 (a * wrap64 (b - c)) in
  let s := wrap64 (t1 + t2) in
  a ← item p3 0 ; b ← item p1 1 ; c ← item p2 1 ;
  let t3 := wrap64 (a * wrap64 (b - c)) in
  let det := wrap64 (s + t3) in
  Return (det =? 0).

(** The determinant over the integers. *)
Definition det3 (x1 y1 x2 y2 x3 y3 : Z) : Z :=
  x1 * (y2 - y3) + x2 * (y3 - y1) + x3 * (y1 - y2).

(** * Properties of the action model *)

Lemma getitem_in_bounds grid i j :
  in_bounds grid (i, j) → getitem grid i j = Return (cell_at grid (i, j)).
Proof.
  intros [[? ?] [? ?]]; simpl in *. unfold getitem, np_index.
  destruct (Z.leb_spec 0 i), (Z.ltb_spec i (shape0 grid)); try lia.
  destruct (Z.leb_spec 0 j), (Z.ltb_spec j (shape1 grid)); try lia.
  reflexivity.
Qed.

Ltac guard_tac :=
  intros [[? ?] [? ?]]; simpl in *;
  unfold free_dest, move, por, is_obstacle; simpl;
  repeat match goal with
  | |- context [?a <? ?b] => destruct (Z.ltb_spec a b); simpl; try lia
  | |- context [?a <=? ?b] => destruct (Z.leb_spec a b); simpl; try lia
  end;
  try reflexivity;
  try (rewrite getitem_in_bounds by (split; simpl; lia); cbn;
       rewrite negb_involutive; repeat f_equal; lia).

Section guards.
Context (grid : ndarray) (x y : Z).
Let n := shape0 grid - 1.
Let m := shape1 grid - 1.

Lemma guard_UP : in_bounds grid (x, y) →
  por (x - 1 <? 0) (is_obstacle grid (x - 1) y)
  = Return (negb (free_dest grid (x, y) UP)).
Proof. subst n m. guard_tac. Qed.

Lemma guard_DOWN : in_bounds grid (x, y) →
  por (n <? x + 1) (is_obstacle grid (x + 1) y)
  = Return (negb (free_dest grid (x, y) DOWN)).
Proof. subst n m. guard_tac. Qed.

Lemma guard_LEFT : in_bounds grid (x, y) →
  por (y - 1 <? 0) (is_obstacle grid x (y - 1))
  = Return (negb (free_dest grid (x, y) LEFT)).
Proof. subst n m. guard_tac. Qed.

Lemma guard_RIGHT : in_bounds grid (x, y) →
  por (m <? y + 1) (is_obstacle grid x (y + 1))
  = Return (negb (free_dest grid (x, y) RIGHT)).
Proof. subst n m. guard_tac. Qed.

Lemma guard_UP_LEFL : in_bounds grid (x, y) →
  por (x - 1 <? 0) (por (y - 1 <? 0) (is_obstacle grid (x - 1) (y - 1)))
  = Return (negb (free_dest grid (x, y) UP_LEFL)).
Proof. subst n m. guard_tac. Qed.

Lemma guard_UP_RIGHT : in_bounds grid (x, y) →
  por (x - 1 <? 0) (por (m <? y + 1) (is_obstacle grid (x - 1) (y + 1)))
  = Return (negb (free_dest grid (x, y) UP_RIGHT)).
Proof. subst n m. guard_tac. Qed.

Lemma guard_DOWN_LEFT : in_bounds grid (x, y) →
  por (n <? x + 1) (por (y - 1 <? 0) (is_obstacle grid (x + 1) (y - 1)))
  = Return (negb (free_dest grid (x, y) DOWN_LEFT)).
Proof. subst n m. guard_tac. Qed.

Lemma guard_DOWN_RIGHT : in_bounds grid (x, y) →
  por (n <? x + 1) (por (m <? y + 1) (is_obstacle grid (x + 1) (y + 1)))
  = Return (negb (free_dest grid (x, y) DOWN_RIGHT)).
Proof. subst n m. guard_tac. Qed.
End guards.

(** On an in-range cell the eight conditional removals amount to filtering
    the initial list, whose order they keep. *)
Lemma valid_actions_filter grid c :
  in_bounds grid c →
  valid_actions grid c = Return (filter (λ a, free_dest grid c a) all_actions).
Proof.
  destruct c as [x y]. intros Hin. unfold valid_actions.
  rewrite (guard_UP_LEFL grid x y), (guard_UP_RIGHT grid x y),
    (guard_DOWN_LEFT grid x y), (guard_DOWN_RIGHT grid x y),
    (guard_UP grid x y), (guard_DOWN grid x y), (guard_LEFT grid x y),
    (guard_RIGHT grid x y) by assumption.
  unfold all_actions. rewrite !filter_cons, filter_nil.
  generalize (free_dest grid (x, y)). intros f.
  generalize (f UP), (f DOWN), (f LEFT), (f RIGHT), (f UP_LEFL), (f UP_RIGHT),
    (f DOWN_LEFT), (f DOWN_RIGHT).
  intros [] [] [] [] [] [] [] []; vm_compute; reflexivity.
Qed.

(** [free_dest] in words. *)
Lemma free_dest_spec grid c a :
  free_dest grid c a = true ↔
  in_bounds grid (move c a) ∧ cell_at grid (move c a) ≠ 1.
Proof.
  unfold free_dest, in_bounds. cbv zeta.
  rewrite !andb_true_iff, negb_true_iff, Z.eqb_neq.
  rewrite !Z.leb_le, !Z.ltb_lt. tauto.
Qed.

(** Membership in the returned list, at a cell of the grid. *)
Lemma valid_actions_elem grid c acts a :
  in_bounds grid c → valid_actions grid c = Return acts →
  a ∈ acts ↔ in_bounds grid (move c a) ∧ cell_at grid (move c a) ≠ 1.
Proof.
  intros Hin Hv. rewrite valid_actions_filter in Hv by assumption.
  injection Hv as <-. rewrite list_elem_of_filter, <- free_dest_spec.
  split.
  - intros [H _]. by apply Is_true_true.
  - intros H. split; [by apply Is_true_true |].
    unfold all_actions. destruct a; set_solver.
Qed.

Lemma binary_cell_at grid c : binary grid → cell_at grid c = 0 ∨ cell_at grid c = 1.
Proof.
  intros Hb. unfold cell_at.
  destruct (nth_in_or_default (Z.to_nat c.1) grid []) as [Hr | ->].
  - unfold binary in Hb. rewrite List.Forall_forall in Hb. specialize (Hb _ Hr).
    destruct (nth_in_or_default (Z.to_nat c.2) (nth (Z.to_nat c.1) grid []) 0)
      as [Hc | ->]; [| by left].
    rewrite List.Forall_forall in Hb. by apply Hb.
  - left. by destruct (Z.to_nat c.2).
Qed.

(** * Properties of the search *)

Lemma is_valid_elem grid c a :
  in_bounds grid c →
  is_valid grid c a ↔ in_bounds grid (move c a) ∧ cell_at grid (move c a) ≠ 1.
Proof.
  intros Hin. split.
  - intros (acts & Hv & Ha). by eapply valid_actions_elem.
  - intros H. eexists. split; [by apply valid_actions_filter |].
    eapply valid_actions_elem; [done | by apply valid_actions_filter | done].
Qed.

Lemma traced_insert grid br start x e n path c :
  br !! x = None → traced grid br start n path c →
  traced grid (<[x := e]> br) start n path c.
Proof.
  intros Hx. induction 1.
  - eapply traced_first; eauto.
    rewrite lookup_insert_ne; [done | intros ->; congruence].
  - eapply traced_step; eauto.
    rewrite lookup_insert_ne; [done | intros ->; congruence].
Qed.

Lemma traced_walk grid br start n path c :
  traced grid br start n path c → walk grid start path n.
Proof.
  induction 1; subst.
  - apply (walk_snoc grid start [] start); [constructor | done].
  - by constructor.
Qed.

Lemma traced_cost grid br start n path c :
  traced grid br start n path c → c = path_cost_sum path.
Proof.
  unfold path_cost_sum. induction 1; subst; [done |].
  by rewrite fold_left_app.
Qed.

Lemma walk_move grid s path n :
  walk grid s path n → fold_left move path s = n.
Proof. induction 1; [done |]. rewrite fold_left_app. simpl. congruence. Qed.

Lemma traced_lookup grid br start n path c :
  traced grid br start n path c → ∃ p a, br !! n = Some (c, p, a).
Proof. destruct 1; eauto. Qed.

Lemma traced_retrace grid br start n path c :
  traced grid br start n path c →
  ∀ fuel acc, (length path ≤ fuel)%nat →
  retrace fuel br start n acc = Return (acc ++ rev path).
Proof.
  induction 1 as [n a c Hn _ _ _ | n p a c path cp Hn Hp _ IH _ _ _];
    intros fuel acc Hf.
  - destruct fuel; [simpl in Hf; lia |].
    simpl. unfold branch_get. rewrite Hn. cbn.
    case_decide; [congruence | done].
  - rewrite length_app in Hf. simpl in Hf.
    destruct fuel; [lia |].
    simpl. unfold branch_get. rewrite Hn. cbn.
    case_decide; [| done].
    rewrite IH by lia. by rewrite rev_app_distr, <- app_assoc.
Qed.

(** ** Termination measure *)

Lemma filter_length_le {A} (P Q : A → Prop)
    `{!∀ x, Decision (P x)} `{!∀ x, Decision (Q x)} (l : list A) :
  (∀ y, Q y → P y) → (length (filter Q l) ≤ length (filter P l))%nat.
Proof.
  intros HQP. induction l as [| y l IH]; [done |].
  rewrite !filter_cons. destruct (decide (Q y)) as [Hq | Hq].
  - rewrite decide_True by auto. simpl. lia.
  - destruct (decide (P y)); simpl; lia.
Qed.

Lemma filter_length_lt {A} (P Q : A → Prop)
    `{!∀ x, Decision (P x)} `{!∀ x, Decision (Q x)} (l : list A) x :
  (∀ y, Q y → P y) → x ∈ l → P x → ¬ Q x →
  (length (filter Q l) < length (filter P l))%nat.
Proof.
  intros HQP Hx HP HQ. induction l as [| y l IH]; [by apply elem_of_nil in Hx |].
  rewrite !filter_cons. apply elem_of_cons in Hx as [<- | Hx].
  - rewrite decide_False, decide_True by done. simpl.
    pose proof (filter_length_le P Q l HQP). lia.
  - specialize (IH Hx). destruct (decide (Q y)) as [Hq | Hq].
    + rewrite decide_True by auto. simpl. lia.
    + destruct (decide (P y)); simpl; lia.
Qed.

Lemma elem_of_all_cells grid c : in_bounds grid c → c ∈ all_cells grid.
Proof.
  destruct c as [x y]. intros [? ?]; simpl in *. unfold all_cells.
  apply list_elem_of_bind. exists x. split; [| apply elem_of_seqZ; lia].
  apply list_elem_of_bind. exists y. split; [| apply elem_of_seqZ; lia].
  by apply list_elem_of_singleton.
Qed.

Lemma unvisited_insert grid vis c :
  in_bounds grid c → inr c ∉ vis →
  (unvisited grid ({[ inr c ]} ∪ vis) < unvisited grid vis)%nat.
Proof.
  intros Hin Hc. unfold unvisited.
  apply filter_length_lt with (x := c); [set_solver | | done | set_solver].
  by apply elem_of_all_cells.
Qed.

(** ** One pass of the [for] loop *)

Section visit.
Context (grid : ndarray) (start cur : Cell) (cc : float).
Hypothesis cur_in : in_bounds grid cur.

Lemma visit_wf st a :
  wf_state grid start st → is_valid grid cur a → source grid start st cur cc →
  wf_state grid start (visit cur cc st a).
Proof.
  intros [Hq Hb] Ha Hsrc. unfold visit. case_decide as Hvis; [done |].
  assert (branch st !! move cur a = None) as Hnone.
  { destruct (branch st !! move cur a) eqn:E; [| done]. by apply Hb in E. }
  split; simpl.
  - intros n c [Hn | Hn%list_elem_of_singleton]%elem_of_app.
    + destruct (Hq _ _ Hn) as [? [path Hp]]. split; [done |].
      exists path. by apply traced_insert.
    + injection Hn as -> ->.
      split; [by apply (is_valid_elem grid cur a cur_in) |].
      destruct Hsrc as [[-> ->] | [[Hne [path Hp]] | Hall]].
      * exists [a]. eapply traced_first; eauto. by rewrite lookup_insert_eq.
      * exists (path ++ [a]). eapply traced_step; eauto.
        -- by rewrite lookup_insert_eq.
        -- by apply traced_insert.
      * exfalso. by apply Hvis, Hall.
  - intros k e. rewrite lookup_insert. case_decide as Hk.
    + subst k. intros _. apply elem_of_union_l. by apply elem_of_singleton.
    + intros Hk'. by apply elem_of_union_r, (Hb k e).
Qed.

Lemma visit_source st a :
  wf_state grid start st → source grid start st cur cc →
  source grid start (visit cur cc st a) cur cc.
Proof.
  intros [Hq Hb] Hsrc. unfold visit. case_decide as Hvis; [done |].
  destruct Hsrc as [? | [[Hne [path Hp]] | Hall]]; [by left | |].
  - right; left. split; [done |]. exists path. simpl.
    apply traced_insert; [| done].
    destruct (branch st !! move cur a) eqn:E; [| done]. by apply Hb in E.
  - right; right. intros b Hb'. simpl. by apply elem_of_union_r, Hall.
Qed.

Lemma visit_measure st a :
  is_valid grid cur a →
  (measure grid (visit cur cc st a) ≤ measure grid st)%nat.
Proof.
  intros Ha. unfold visit. case_decide as Hvis; [done |].
  unfold measure. simpl. rewrite length_app. simpl.
  apply (is_valid_elem grid cur a cur_in) in Ha as [Hin _].
  pose proof (unvisited_insert grid (visited st) _ Hin Hvis). lia.
Qed.

Lemma visit_visited st a :
  inr (move cur a) ∈ visited (visit cur cc st a)
  ∧ visited st ⊆ visited (visit cur cc st a).
Proof. unfold visit. case_decide; simpl; set_solver. Qed.

Lemma fold_visit acts : ∀ st,
  wf_state grid start st → (∀ a, a ∈ acts → is_valid grid cur a) →
  source grid start st cur cc →
  let st' := fold_left (visit cur cc) acts st in
  wf_state grid start st'
  ∧ (measure grid st' ≤ measure grid st)%nat
  ∧ visited st ⊆ visited st'
  ∧ (∀ a, a ∈ acts → inr (move cur a) ∈ visited st').
Proof.
  induction acts as [| a acts IH]; intros st Hwf Hacts Hsrc; simpl.
  - split_and!; [done | done | done |]. intros a Ha. by apply elem_of_nil in Ha.
  - assert (is_valid grid cur a) as Ha by (apply Hacts; left).
    destruct (IH (visit cur cc st a)) as (Hwf' & Hm & Hsub & Hall).
    + by apply visit_wf.
    + intros b Hb. apply Hacts. by right.
    + by apply visit_source.
    + pose proof (visit_measure st a Ha).
      destruct (visit_visited st a) as [Hv1 Hv2].
      split_and!; [done | lia | by etrans |].
      intros b [-> | Hb]%elem_of_cons; [by apply Hsub | by apply Hall].
Qed.
End visit.

(** ** The [while] loop *)

Lemma search_mono grid goal : ∀ fuel fuel' st r,
  search fuel grid goal st = Return r → (fuel ≤ fuel')%nat →
  search fuel' grid goal st = Return r.
Proof.
  induction fuel as [| fuel IH]; intros fuel' st r Hs Hle; [done |].
  destruct fuel' as [| fuel']; [lia |].
  simpl in *. destruct (queue st) as [| [cur cc] q]; [done |].
  case_decide; [done |].
  destruct (valid_actions grid cur) as [acts | |]; cbn in *; [| done | done].
  apply IH; [done | lia].
Qed.

Lemma search_inv grid start goal : ∀ fuel st,
  wf_state grid start st →
  (∀ a, is_valid grid start a → inr (move start a) ∈ visited st) →
  (measure grid st < fuel)%nat →
  ∃ found st', search fuel grid goal st = Return (found, st')
    ∧ (found = true → ∃ path c, traced grid (branch st') start goal path c)
    ∧ (found = false → queue st' = []).
Proof.
  induction fuel as [| fuel IH]; intros st Hwf Hstart Hm; [lia |].
  simpl. destruct (queue st) as [| [cur cc] q] eqn:Eq.
  { exists false, st. by rewrite Eq. }
  destruct (wf_queue _ _ _ Hwf cur cc) as [Hin [path Hp]];
    [rewrite Eq; left |].
  set (st0 := {| queue := q; visited := visited st; branch := branch st |}).
  case_decide as Hg.
  { subst cur. exists true, st0. split_and!; [done | eauto | done]. }
  rewrite valid_actions_filter by done. cbn [mbind result_bind].
  assert (wf_state grid start st0) as Hwf0.
  { destruct Hwf as [Hq Hb]. split; [| done].
    intros n c Hn. apply Hq. rewrite Eq. by right. }
  destruct (fold_visit grid start cur cc Hin
              (filter (λ a, free_dest grid cur a) all_actions) st0)
    as (Hwf' & Hm' & Hsub & _).
  - done.
  - intros a Ha. eexists. split; [by apply valid_actions_filter | done].
  - destruct (decide (cur = start)) as [-> | Hne].
    + right; right. done.
    + right; left. eauto.
  - apply IH; [done | intros a Ha; by apply Hsub, Hstart |].
    unfold measure in *. subst st0. rewrite Eq in Hm.
    cbn [queue visited length] in *. lia.
Qed.

(** The loop from the initial state: the first iteration expands [start]
    with cost 0, after which the invariant holds. *)
Lemma search_from_start grid start goal :
  in_bounds grid start → start ≠ goal →
  ∃ N found st,
    (∀ fuel, (N ≤ fuel)%nat →
       search fuel grid goal (init start) = Return (found, st))
    ∧ (found = true → ∃ path c, traced grid (branch st) start goal path c)
    ∧ (found = false → queue st = []).
Proof.
  intros Hin Hne.
  set (acts := filter (λ a, free_dest grid start a) all_actions).
  set (st0 := {| queue := []; visited := set_of_tuple start; branch := ∅ |}).
  set (st1 := fold_left (visit start 0%float) acts st0).
  destruct (fold_visit grid start start 0%float Hin acts st0)
    as (Hwf & _ & _ & Hall).
  { split; simpl; [intros n c Hn; by apply elem_of_nil in Hn |].
    intros k e. by rewrite lookup_empty. }
  { intros a Ha. eexists. split; [by apply valid_actions_filter | done]. }
  { by left. }
  destruct (search_inv grid start goal (S (measure grid st1)) st1)
    as (found & st' & Hs & Hfound & Hnot); [done | | lia |].
  { intros a (acts' & Hv & Ha). apply Hall.
    rewrite valid_actions_filter in Hv by done. by injection Hv as <-. }
  exists (S (S (measure grid st1))), found, st'. split_and!; [| done | done].
  intros fuel Hf. destruct fuel as [| fuel]; [lia |].
  simpl. rewrite decide_False by done.
  rewrite valid_actions_filter by done. cbn [mbind result_bind].
  eapply search_mono; [exact Hs | lia].
Qed.

Lemma walk_reachable grid start path n :
  in_bounds grid start → walk grid start path n →
  reachable grid start n ∧ in_bounds grid n.
Proof.
  intros Hin. induction 1 as [| path n a _ [IH1 IH2] Ha]; [by split |].
  apply (is_valid_elem grid n a IH2) in Ha as [Hin' Hfree].
  split; [| done]. eapply rtc_r; [exact IH1 |].
  exists (delta a).1, (delta a).2. split_and!; try done; destruct a; simpl; lia || done.
Qed.

(** What [uniform_cost] returns from an on-grid [start] different from
    [goal], for any fuel above a bound that depends on the inputs only. *)
Lemma uniform_cost_outcome grid start goal :
  in_bounds grid start → start ≠ goal →
  ∃ N found st path c,
    (∀ fuel, (N ≤ fuel)%nat →
       search fuel grid goal (init start) = Return (found, st)
       ∧ uniform_cost fuel grid start goal = Return (path, c))
    ∧ (found = true → traced grid (branch st) start goal path c)
    ∧ (found = false → queue st = [] ∧ path = [] ∧ c = 0%float).
Proof.
  intros Hin Hne.
  destruct (search_from_start grid start goal Hin Hne)
    as (N & found & st & Hs & Hfound & Hnot).
  destruct found.
  - destruct (Hfound eq_refl) as (path & c & Hp).
    exists (N `max` length path)%nat, true, st, path, c.
    split_and!; [| done | done].
    intros fuel Hf. split; [apply Hs; lia |].
    unfold uniform_cost. rewrite Hs by lia. cbn.
    destruct (traced_lookup _ _ _ _ _ _ Hp) as (p & a & Hl).
    unfold branch_get at 1. rewrite Hl. cbn.
    rewrite (traced_retrace _ _ _ _ _ _ Hp) by lia. cbn.
    by rewrite rev_involutive.
  - exists N, false, st, [], 0%float. split_and!; [| done | auto].
    intros fuel Hf. split; [by apply Hs |].
    unfold uniform_cost. by rewrite Hs.
Qed.

Lemma retrace_mono br start : ∀ fuel fuel' n acc r,
  retrace fuel br start n acc = Return r → (fuel ≤ fuel')%nat →
  retrace fuel' br start n acc = Return r.
Proof.
  induction fuel as [| fuel IH]; intros fuel' n acc r Hr Hle; [done |].
  destruct fuel' as [| fuel']; [lia |].
  simpl in *. destruct (branch_get br n) as [[[c p] a] | |]; cbn in *;
    [| done | done].
  case_decide; [| done]. apply IH; [done | lia].
Qed.

Lemma uniform_cost_mono grid start goal fuel fuel' r :
  uniform_cost fuel grid start goal = Return r → (fuel ≤ fuel')%nat →
  uniform_cost fuel' grid start goal = Return r.
Proof.
  unfold uniform_cost. intros Hr Hle.
  destruct (search fuel grid goal (init start)) as [[found st] | |] eqn:Hs;
    cbn in Hr; [| done | done].
  rewrite (search_mono _ _ _ _ _ _ Hs Hle). cbn.
  destruct found; [| done].
  destruct (branch_get (branch st) goal) as [[[c p] a] | |]; cbn in *;
    [| done | done].
  destruct (retrace fuel (branch st) start goal []) as [path | |] eqn:Ht;
    cbn in Hr; [| done | done].
  by rewrite (retrace_mono _ _ _ _ _ _ _ Ht Hle).
Qed.

(** * The claims *)

(** C1. On the 5-by-6 grid of the notebook, from (0,0) to (4,4), the search
    finds the goal and the call returns the cost 8.242640687119286, which
    is also the float 4 + 3*sqrt(2), with the seven actions DOWN, DOWN,
    DOWN, DOWN_RIGHT, RIGHT, UP_RIGHT, DOWN_RIGHT; 20 units of fuel, or
    any larger amount, are enough. *)
#[warnings="-inexact-float"]
Theorem uniform_cost_example (k : nat) :
  (∃ st, search (20 + k) example_grid (4, 4) (init (0, 0)) = Return (true, st))
  ∧ uniform_cost (20 + k) example_grid (0, 0) (4, 4)
    = Return ([DOWN; DOWN; DOWN; DOWN_RIGHT; RIGHT; UP_RIGHT; DOWN_RIGHT],
              8.242640687119286%float)
  ∧ (4 + 3 * sqrt2)%float = 8.242640687119286%float.
Proof.
  split_and!.
  - exists (final_state (search 20 example_grid (4, 4) (init (0, 0)))).
    apply (search_mono _ _ 20); [vm_compute; reflexivity | lia].
  - apply (uniform_cost_mono _ _ _ 20); [vm_compute; reflexivity | lia].
  - vm_compute. reflexivity.
Qed.

(** C2 (the code departs from it). [set(start)] holds the two coordinates
    of [start], not the cell, so the cell [start] is not marked at the
    beginning; on the example grid the search started at (0,0) expands
    (1,0) next, finds (0,0) unmarked, puts it on the queue again with cost
    2, marks it then, and records a branch entry for it. *)
Theorem start_cell_not_marked_initially :
  (∀ start : Cell, inr start ∉ visited (init start))
  ∧ visited (init (0, 0)) = {[ inl 0 ]}
  ∧ valid_actions example_grid (0, 0) = Return [DOWN]
  ∧ valid_actions example_grid (1, 0) = Return [UP; DOWN]
  ∧ (let st0 := {| queue := []; visited := visited (init (0, 0)); branch := ∅ |} in
     let st1 := fold_left (visit (0, 0) 0%float) [DOWN] st0 in
     let st1' := {| queue := []; visited := visited st1; branch := branch st1 |} in
     let st2 := fold_left (visit (1, 0) 1%float) [UP; DOWN] st1' in
     queue st1 = [((1, 0), 1%float)]
     ∧ queue st2 = [((0, 0), 2%float); ((2, 0), 2%float)])
  ∧ ∃ st, search 20 example_grid (4, 4) (init (0, 0)) = Return (true, st)
      ∧ branch st !! (0, 0) = Some (2%float, (1, 0), UP)
      ∧ inr (0, 0) ∈ visited st.
Proof.
  split_and!.
  - intros start. unfold init, set_of_tuple. simpl.
    rewrite elem_of_union, !elem_of_singleton. by intros [? | ?].
  - unfold init, set_of_tuple. simpl. set_solver.
  - by vm_compute.
  - by vm_compute.
  - vm_compute. split; reflexivity.
  - exists (final_state (search 20 example_grid (4, 4) (init (0, 0)))).
    split_and!; [by vm_compute | by vm_compute |].
    apply (bool_decide_unpack _). by vm_compute.
Qed.

(** C3 (the code departs from it). With [start == goal] the first item
    taken from the queue is the goal, so [found] is set while [branch] is
    still empty, and reading [branch[goal]] raises [KeyError]: no empty
    path and no cost 0 is returned. *)
Theorem uniform_cost_start_is_goal (grid : ndarray) (c : Cell) (fuel : nat) :
  search (S fuel) grid c (init c)
    = Return (true, {| queue := []; visited := set_of_tuple c; branch := ∅ |})
  ∧ uniform_cost (S fuel) grid c c = Raise KeyError.
Proof.
  unfold uniform_cost. simpl. rewrite decide_True by done. split; [done |].
  cbn. unfold branch_get. by rewrite lookup_empty.
Qed.

(** C4. On a grid of zeros and ones, at a cell of the grid, [valid_actions]
    returns a list, and every action in it leads to a cell that is inside
    the grid and holds 0. *)
Theorem valid_actions_sound (grid : ndarray) (c : Cell) :
  in_bounds grid c → binary grid →
  ∃ acts, valid_actions grid c = Return acts
    ∧ ∀ a, a ∈ acts →
        let d := move c a in
        0 ≤ d.1 < shape0 grid ∧ 0 ≤ d.2 < shape1 grid
        ∧ getitem grid d.1 d.2 = Return 0.
Proof.
  intros Hin Hbin. eexists. split; [by apply valid_actions_filter |].
  intros a Ha d.
  eapply valid_actions_elem in Ha as [Hd Hfree];
    [| done | by apply valid_actions_filter].
  fold d in Hd, Hfree. clearbody d. destruct d as [i j].
  destruct Hd as [[? ?] [? ?]]. simpl in *. split_and!; try done.
  rewrite getitem_in_bounds by (split; simpl; lia).
  destruct (binary_cell_at grid (i, j) Hbin); congruence.
Qed.

Lemma valid_actions_sound_witness :
  ∃ acts, valid_actions example_grid (2, 2) = Return acts
    ∧ ∀ a, a ∈ acts →
        let d := move (2, 2) a in
        0 ≤ d.1 < shape0 example_grid ∧ 0 ≤ d.2 < shape1 example_grid
        ∧ getitem example_grid d.1 d.2 = Return 0.
Proof.
  apply (valid_actions_sound example_grid (2, 2)).
  - unfold in_bounds, shape0, shape1. simpl. lia.
  - unfold binary, example_grid.
    repeat (apply List.Forall_cons || apply List.Forall_nil); lia.
Defined.

Ltac not_sublist H :=
  lazymatch type of H with
  | _ `sublist_of` [] => apply sublist_nil_r in H; discriminate H
  | _ `sublist_of` (_ :: _) =>
      apply sublist_cons_r in H as [H | (? & ? & H)];
      [not_sublist H | simplify_eq; not_sublist H]
  end.

(** C5, as the spec words it, fails: with all eight neighbours free the
    list returned is UP, LEFT, RIGHT, DOWN, then the diagonals, which is
    neither the spec's list nor a subsequence of it. *)
Lemma valid_actions_not_in_spec_order :
  valid_actions open_grid (1, 1)
    = Return [UP; LEFT; RIGHT; DOWN; UP_LEFL; UP_RIGHT; DOWN_LEFT; DOWN_RIGHT]
  ∧ ¬ [UP; LEFT; RIGHT; DOWN; UP_LEFL; UP_RIGHT; DOWN_LEFT; DOWN_RIGHT]
        `sublist_of` spec_order.
Proof.
  split; [by vm_compute |]. unfold spec_order. intros H. not_sublist H.
Qed.

(** C5, amended. At a cell of the grid, [valid_actions] returns the
    actions with an on-grid destination not holding 1, in the order of the
    fixed list UP(-1,0), LEFT(0,-1), RIGHT(0,+1), DOWN(+1,0), UP_LEFL(-1,-1),
    UP_RIGHT(-1,+1), DOWN_LEFT(+1,-1), DOWN_RIGHT(+1,+1): it is that list
    filtered, hence a subsequence of it. *)
Theorem valid_actions_order (grid : ndarray) (c : Cell) :
  in_bounds grid c →
  let full := [UP; LEFT; RIGHT; DOWN; UP_LEFL; UP_RIGHT; DOWN_LEFT; DOWN_RIGHT] in
  ∃ acts, valid_actions grid c = Return acts
    ∧ acts = filter (λ a, free_dest grid c a) full
    ∧ acts `sublist_of` full
    ∧ delta <$> full
      = [(-1, 0); (0, -1); (0, 1); (1, 0); (-1, -1); (-1, 1); (1, -1); (1, 1)].
Proof.
  intros Hin full. eexists. split_and!.
  - by apply valid_actions_filter.
  - done.
  - apply sublist_filter.
  - done.
Qed.

Lemma valid_actions_order_witness :
  let full := [UP; LEFT; RIGHT; DOWN; UP_LEFL; UP_RIGHT; DOWN_LEFT; DOWN_RIGHT] in
  ∃ acts, valid_actions example_grid (2, 2) = Return acts
    ∧ acts = filter (λ a, free_dest example_grid (2, 2) a) full
    ∧ acts `sublist_of` full
    ∧ delta <$> full
      = [(-1, 0); (0, -1); (0, 1); (1, 0); (-1, -1); (-1, 1); (1, -1); (1, 1)].
Proof.
  apply (valid_actions_order example_grid (2, 2)).
  unfold in_bounds, shape0, shape1. simpl. lia.
Defined.

Lemma move_neq c a : move c a ≠ c.
Proof. destruct c as [x y]. unfold move. destruct a; simpl; intros [=]; lia. Qed.

(** C10. [valid_actions] at a cell of the grid does not depend on what the
    grid holds at that cell: two grids of the same shape which agree
    everywhere else give the same list.  So whatever the cell itself holds,
    the list contains every action whose destination is on the grid and
    does not hold 1. *)
Theorem valid_actions_ignores_own_cell (grid grid' : ndarray) (c : Cell) :
  in_bounds grid c →
  shape0 grid' = shape0 grid → shape1 grid' = shape1 grid →
  (∀ d, in_bounds grid d → d ≠ c → cell_at grid' d = cell_at grid d) →
  valid_actions grid' c = valid_actions grid c
  ∧ ∃ acts, valid_actions grid c = Return acts
      ∧ ∀ a, in_bounds grid (move c a) → cell_at grid (move c a) ≠ 1 → a ∈ acts.
Proof.
  intros Hin H0 H1 Hagree.
  assert (in_bounds grid' c) as Hin'.
  { unfold in_bounds in *. by rewrite H0, H1. }
  rewrite !valid_actions_filter by done. split.
  - f_equal. apply list_filter_iff. intros a.
    rewrite !Is_true_true, !free_dest_spec.
    unfold in_bounds. rewrite H0, H1. split.
    + intros [Hd Hf]. split; [done |].
      rewrite <- Hagree; [done | done | apply move_neq].
    + intros [Hd Hf]. split; [done |].
      rewrite Hagree; [done | done | apply move_neq].
  - eexists. split; [done |]. intros a Hd Hf.
    by apply (valid_actions_elem grid c _ a Hin (valid_actions_filter grid c Hin)).
Qed.

Lemma valid_actions_ignores_own_cell_witness :
  valid_actions example_grid_blocked (2, 2) = valid_actions example_grid (2, 2)
  ∧ ∃ acts, valid_actions example_grid (2, 2) = Return acts
      ∧ ∀ a, in_bounds example_grid (move (2, 2) a) →
          cell_at example_grid (move (2, 2) a) ≠ 1 → a ∈ acts.
Proof.
  apply (valid_actions_ignores_own_cell example_grid example_grid_blocked (2, 2)).
  - unfold in_bounds, shape0, shape1. simpl. lia.
  - reflexivity.
  - reflexivity.
  - intros [i j] [[? ?] [? ?]] Hne. unfold shape0, shape1 in *. simpl in *.
    assert (i = 0 ∨ i = 1 ∨ i = 2 ∨ i = 3 ∨ i = 4) as Hi by lia.
    assert (j = 0 ∨ j = 1 ∨ j = 2 ∨ j = 3 ∨ j = 4 ∨ j = 5) as Hj by lia.
    destruct Hi as [-> | [-> | [-> | [-> | ->]]]];
      destruct Hj as [-> | [-> | [-> | [-> | [-> | ->]]]]];
      try reflexivity.
    by destruct Hne.
Defined.

Lemma found_is_reachable grid start goal path c br :
  in_bounds grid start → traced grid br start goal path c →
  reachable grid start goal.
Proof.
  intros Hin Hp. by apply (walk_reachable grid start path), (traced_walk _ br _ _ _ c).
Qed.

(** A destination nothing can step into, other than the start itself, is
    not reachable. *)
Lemma unreachable_dest grid start goal :
  start ≠ goal → (¬ in_bounds grid goal ∨ cell_at grid goal = 1) →
  ¬ reachable grid start goal.
Proof.
  intros Hne Hbad [-> | (y & _ & (dr & dc & _ & _ & _ & _ & Hin & Hfree))]%rtc_inv_r;
    [done |].
  destruct Hbad; done.
Qed.

(** C7. From a start cell on the grid, when no chain of moves to
    8-neighbours that are on the grid and not obstacles leads to [goal],
    the loop ends with an empty queue and [found = False], and the call
    returns the empty path with cost 0 (a value, not an exception), for any
    fuel above some bound. *)
Theorem uniform_cost_unreachable (grid : ndarray) (start goal : Cell) :
  in_bounds grid start → ¬ reachable grid start goal →
  ∃ N, ∀ fuel, (N ≤ fuel)%nat →
    (∃ st, search fuel grid goal (init start) = Return (false, st)
           ∧ queue st = [])
    ∧ uniform_cost fuel grid start goal = Return ([], 0%float).
Proof.
  intros Hin Hunr.
  assert (start ≠ goal) as Hne by (intros ->; apply Hunr; constructor).
  destruct (uniform_cost_outcome grid start goal Hin Hne)
    as (N & found & st & path & c & Hrun & Hfound & Hnot).
  destruct found.
  { exfalso. apply Hunr. eapply found_is_reachable; [done | by apply Hfound]. }
  destruct (Hnot eq_refl) as (Hq & -> & ->).
  exists N. intros fuel Hf. destruct (Hrun fuel Hf) as [Hs Hu]. eauto.
Qed.

Lemma uniform_cost_unreachable_witness :
  ∃ N, ∀ fuel, (N ≤ fuel)%nat →
    (∃ st, search fuel enclosed_grid (2, 2) (init (0, 0)) = Return (false, st)
           ∧ queue st = [])
    ∧ uniform_cost fuel enclosed_grid (0, 0) (2, 2) = Return ([], 0%float).
Proof.
  apply (uniform_cost_unreachable enclosed_grid (0, 0) (2, 2)).
  - unfold in_bounds, shape0, shape1. simpl. lia.
  - intros [[=] | (y & Hy & (dr & dc & ? & ? & Hd & Hg & _))]%rtc_inv_r.
    injection Hg as Hg1 Hg2.
    apply rtc_inv_r in Hy
      as [<- | (z & _ & (dr' & dc' & _ & _ & _ & -> & [[? ?] [? ?]] & Hfree))];
      simpl in *; [lia |].
    unfold shape0, shape1 in *. simpl in *.
    assert (z.1 + dr' = 1 ∨ z.1 + dr' = 2 ∨ z.1 + dr' = 3) as Hi by lia.
    assert (z.2 + dc' = 1 ∨ z.2 + dc' = 2 ∨ z.2 + dc' = 3) as Hj by lia.
    unfold cell_at in Hfree. simpl in Hfree.
    destruct Hi as [Hi | [Hi | Hi]]; destruct Hj as [Hj | [Hj | Hj]];
      rewrite Hi, Hj in Hfree; simpl in Hfree; try done.
    apply Hd. f_equal; lia.
Defined.

(** C8, away from [start == goal]. From a start cell on the grid and for a
    goal other than the start, when the loop ends with [found = True] the
    call returns a path and a cost: the path is made of actions that were
    valid where they were taken, applying their deltas in order from
    [start] ends at [goal], and the cost is the sum of their costs added
    from 0 in path order. *)
Theorem uniform_cost_found_is_path (grid : ndarray) (start goal : Cell)
    (fuel : nat) (st : state) :
  in_bounds grid start → start ≠ goal →
  search fuel grid goal (init start) = Return (true, st) →
  ∃ N path c,
    (∀ fuel', (N ≤ fuel')%nat →
       uniform_cost fuel' grid start goal = Return (path, c))
    ∧ walk grid start path goal
    ∧ fold_left move path start = goal
    ∧ c = path_cost_sum path.
Proof.
  intros Hin Hne Hs.
  destruct (uniform_cost_outcome grid start goal Hin Hne)
    as (N & found & st' & path & c & Hrun & Hfound & _).
  destruct (Hrun (N `max` fuel)%nat) as [Hs' _]; [lia |].
  rewrite (search_mono _ _ _ (N `max` fuel)%nat _ _ Hs) in Hs' by lia.
  injection Hs' as <- <-.
  specialize (Hfound eq_refl).
  exists N, path, c. split_and!.
  - intros fuel' Hf. by apply Hrun.
  - by eapply traced_walk.
  - eapply walk_move, traced_walk; done.
  - by eapply traced_cost.
Qed.

Lemma uniform_cost_found_is_path_witness :
  ∃ N path c,
    (∀ fuel', (N ≤ fuel')%nat →
       uniform_cost fuel' example_grid (0, 0) (4, 4) = Return (path, c))
    ∧ walk example_grid (0, 0) path (4, 4)
    ∧ fold_left move path (0, 0) = (4, 4)
    ∧ c = path_cost_sum path.
Proof.
  apply (uniform_cost_found_is_path example_grid (0, 0) (4, 4) 20
           (final_state (search 20 example_grid (4, 4) (init (0, 0))))).
  - unfold in_bounds, shape0, shape1. simpl. lia.
  - discriminate.
  - vm_compute. reflexivity.
Defined.

(** C8 (the code departs from it). With [start == goal] the loop ends with
    [found = True], yet no path and no cost come back: the call raises
    [KeyError].  Shown on the example grid at (0,0). *)
Theorem uniform_cost_found_without_path (k : nat) :
  (∃ st, search (S k) example_grid (0, 0) (init (0, 0)) = Return (true, st))
  ∧ uniform_cost (S k) example_grid (0, 0) (0, 0) = Raise KeyError.
Proof.
  unfold uniform_cost. simpl. split; [eauto |]. done.
Qed.

(** C9, as the spec words it, fails: a start on an obstacle, a goal off the
    grid and a start off the grid are all accepted without any error. *)
Lemma uniform_cost_accepts_bad_endpoints :
  (cell_at example_grid (0, 1) = 1
   ∧ uniform_cost 20 example_grid (0, 1) (0, 0) = Return ([LEFT], 1%float))
  ∧ (¬ in_bounds example_grid (7, 7)
     ∧ uniform_cost 40 example_grid (0, 0) (7, 7) = Return ([], 0%float))
  ∧ (¬ in_bounds example_grid (-1, 0)
     ∧ ∃ path c, uniform_cost 40 example_grid (-1, 0) (4, 4) = Return (path, c)
                 ∧ path = [RIGHT; DOWN_RIGHT; DOWN; DOWN; DOWN_RIGHT; DOWN_RIGHT]).
Proof.
  split_and!; try (by vm_compute);
    try (intros [[H1 H2] _]; vm_compute in H1, H2;
         first [discriminate | by destruct H1]).
  eexists _, _. split; [vm_compute; reflexivity | reflexivity].
Qed.

(** C9, amended. [uniform_cost] checks neither endpoint.  From any start
    cell on the grid, obstacle or not, and for any goal other than the
    start, on the grid or not, obstacle or not, the search runs and the
    call returns a path and a cost, without raising; when the goal is off
    the grid or on an obstacle these are the empty path and 0. *)
Theorem uniform_cost_no_endpoint_check (grid : ndarray) (start goal : Cell) :
  in_bounds grid start → start ≠ goal →
  ∃ N path c,
    (∀ fuel, (N ≤ fuel)%nat →
       uniform_cost fuel grid start goal = Return (path, c))
    ∧ (¬ in_bounds grid goal ∨ cell_at grid goal = 1 →
       path = [] ∧ c = 0%float).
Proof.
  intros Hin Hne.
  destruct (uniform_cost_outcome grid start goal Hin Hne)
    as (N & found & st & path & c & Hrun & Hfound & Hnot).
  exists N, path, c. split; [intros fuel Hf; by apply Hrun |].
  intros Hbad. destruct found; [| by apply Hnot].
  exfalso. apply (unreachable_dest grid start goal Hne Hbad).
  eapply found_is_reachable; [done | by apply Hfound].
Qed.

Lemma uniform_cost_no_endpoint_check_witness :
  ∃ N path c,
    (∀ fuel, (N ≤ fuel)%nat →
       uniform_cost fuel example_grid (0, 1) (0, 0) = Return (path, c))
    ∧ (¬ in_bounds example_grid (0, 0) ∨ cell_at example_grid (0, 0) = 1 →
       path = [] ∧ c = 0%float).
Proof.
  apply (uniform_cost_no_endpoint_check example_grid (0, 1) (0, 0)).
  - unfold in_bounds, shape0, shape1. simpl. lia.
  - discriminate.
Defined.

(** * Properties of the occupancy grid *)

Lemma cell_at_lookup (grid : ndarray) i j row v :
  grid !! Z.to_nat i = Some row → row !! Z.to_nat j = Some v →
  cell_at grid (i, j) = v.
Proof.
  intros Hr Hv. unfold cell_at. simpl.
  by rewrite (nth_lookup_Some _ _ _ _ Hr), (nth_lookup_Some _ _ _ _ Hv).
Qed.

Lemma has_shape_lookup n m grid i j :
  has_shape n m grid → 0 ≤ i < n → 0 ≤ j < m →
  ∃ row v, grid !! Z.to_nat i = Some row ∧ row !! Z.to_nat j = Some v.
Proof.
  intros [Hn Hm] Hi Hj.
  destruct (lookup_lt_is_Some_2 grid (Z.to_nat i)) as [row Hr]; [lia |].
  pose proof (Forall_lookup_1 _ _ _ _ Hm Hr) as Hlen. simpl in Hlen.
  destruct (lookup_lt_is_Some_2 row (Z.to_nat j)) as [v Hv]; [lia |].
  eauto.
Qed.

Lemma has_shape_assign_one n m grid r0 r1 c0 c1 :
  has_shape n m grid → has_shape n m (assign_one n m grid r0 r1 c0 c1).
Proof.
  intros [Hn Hm]. unfold assign_one. split; [by rewrite length_imap |].
  apply Forall_lookup. intros i row. rewrite list_lookup_imap.
  destruct (grid !! i) as [row' |] eqn:Hr; simpl; [| done].
  pose proof (Forall_lookup_1 _ _ _ _ Hm Hr) as Hlen. simpl in Hlen.
  intros [= <-]. case_match; [by rewrite length_imap | done].
Qed.

Lemma cell_at_assign_one n m grid r0 r1 c0 c1 i j :
  has_shape n m grid → 0 ≤ i < n → 0 ≤ j < m →
  cell_at (assign_one n m grid r0 r1 c0 c1) (i, j)
  = if (slice_index r0 n <=? i) && (i <? slice_index r1 n)
       && ((slice_index c0 m <=? j) && (j <? slice_index c1 m))
    then 1 else cell_at grid (i, j).
Proof.
  intros Hs Hi Hj.
  destruct (has_shape_lookup n m grid i j Hs Hi Hj) as (row & v & Hr & Hv).
  rewrite (cell_at_lookup grid i j row v Hr Hv).
  unfold assign_one.
  destruct ((slice_index r0 n <=? i) && (i <? slice_index r1 n)) eqn:Erow.
  - destruct ((slice_index c0 m <=? j) && (j <? slice_index c1 m)) eqn:Ecol.
    + simpl. eapply cell_at_lookup.
      * rewrite list_lookup_imap, Hr. simpl. by rewrite Z2Nat.id, Erow by lia.
      * rewrite list_lookup_imap, Hv. simpl. by rewrite Z2Nat.id, Ecol by lia.
    + simpl. eapply cell_at_lookup.
      * rewrite list_lookup_imap, Hr. simpl. by rewrite Z2Nat.id, Erow by lia.
      * rewrite list_lookup_imap, Hv. simpl. by rewrite Z2Nat.id, Ecol by lia.
  - simpl. eapply cell_at_lookup; [| exact Hv].
    rewrite list_lookup_imap, Hr. simpl. by rewrite Z2Nat.id, Erow by lia.
Qed.

Section populate.
Context (north_min east_min : float) (north_size east_size : Z).
Context (drone_altitude safety_distance : float).

Let body := populate north_min east_min north_size east_size
              drone_altitude safety_distance.
Let covered := covers north_min east_min north_size east_size safety_distance.

Lemma populate_cells grid o grid' :
  has_shape north_size east_size grid → body grid o = Return grid' →
  has_shape north_size east_size grid'
  ∧ ∀ i j, 0 ≤ i < north_size → 0 ≤ j < east_size →
      cell_at grid' (i, j) = 1 ↔
      cell_at grid (i, j) = 1
      ∨ (in_altitude_band o drone_altitude safety_distance = true ∧ covered o i j).
Proof.
  subst body covered. unfold populate, covers. intros Hs.
  destruct (in_altitude_band o drone_altitude safety_distance).
  - destruct (footprint north_min east_min north_size east_size
                safety_distance o) as [[[[o0 o1] o2] o3] | |]; cbn; [| done..].
    intros [= <-]. split; [by apply has_shape_assign_one |].
    intros i j Hi Hj. rewrite cell_at_assign_one by done.
    destruct ((slice_index o0 north_size <=? i)
              && (i <? slice_index (o1 + 1) north_size)
              && ((slice_index o2 east_size <=? j)
                  && (j <? slice_index (o3 + 1) east_size))) eqn:E.
    + split; [| done]. intros _. right. split; [done |].
      exists o0, o1, o2, o3. split; [done |].
      rewrite !andb_true_iff, !Z.leb_le, !Z.ltb_lt in E. lia.
    + split; [by left |]. intros [? | [_ (p0 & p1 & p2 & p3 & [= -> -> -> ->] & ? & ?)]];
        [done |].
      rewrite !andb_false_iff, !Z.leb_gt, !Z.ltb_ge in E. lia.
  - intros [= <-]. split; [done |]. intros i j _ _. split; [by left |].
    by intros [? | [? _]].
Qed.

Lemma for_each_populate_cells data : ∀ grid grid',
  has_shape north_size east_size grid →
  for_each body data grid = Return grid' →
  has_shape north_size east_size grid'
  ∧ ∀ i j, 0 ≤ i < north_size → 0 ≤ j < east_size →
      cell_at grid' (i, j) = 1 ↔
      cell_at grid (i, j) = 1
      ∨ ∃ o, o ∈ data
          ∧ in_altitude_band o drone_altitude safety_distance = true
          ∧ covered o i j.
Proof.
  induction data as [| o data IH]; intros grid grid' Hs; simpl.
  - intros [= <-]. split; [done |]. intros i j _ _. split; [by left |].
    intros [? | (o & Ho & _)]; [done | by apply elem_of_nil in Ho].
  - destruct (body grid o) as [grid1 | |] eqn:Hb; cbn; [| done..].
    intros Hrest.
    destruct (populate_cells grid o grid1 Hs Hb) as [Hs1 H1].
    destruct (IH grid1 grid' Hs1 Hrest) as [Hs' H'].
    split; [done |]. intros i j Hi Hj. rewrite H', H1 by done. split.
    + intros [[? | [? ?]] | (o' & ? & ?)]; [by left | right | right].
      * exists o. split; [left | done].
      * exists o'. split; [by right | done].
    + intros [? | (o' & [-> | ?]%elem_of_cons & ?)];
        [by left; left | by left; right | right; eauto].
Qed.
End populate.

Lemma np_zeros_spec n m grid :
  np_zeros n m = Return grid →
  has_shape n m grid ∧ ∀ i j, cell_at grid (i, j) = 0.
Proof.
  unfold np_zeros. case_match; [done |]. intros [= <-]. split.
  - split; [by rewrite length_replicate |].
    apply Forall_replicate. by rewrite length_replicate.
  - intros i j. unfold cell_at. simpl. rewrite !nth_lookup.
    destruct (replicate (Z.to_nat n) (replicate (Z.to_nat m) 0) !! Z.to_nat i)
      as [row |] eqn:Hr; simpl; [| by destruct (Z.to_nat j)].
    apply lookup_replicate in Hr as [-> _].
    destruct (replicate (Z.to_nat m) 0 !! Z.to_nat j) as [v |] eqn:Hv; [| done].
    by apply lookup_replicate in Hv as [-> _].
Qed.

Ltac bind_step :=
  match goal with
  | |- mbind _ ?r = Return _ → _ =>
      destruct r eqn:?; cbn [mbind result_bind]; [| done..]
  end.

Lemma create_grid_frame data drone_altitude safety_distance grid :
  create_grid data drone_altitude safety_distance = Return grid →
  ∃ north_min east_min north_size east_size grid0,
    grid_frame data = Return (north_min, east_min, north_size, east_size)
    ∧ np_zeros north_size east_size = Return grid0
    ∧ for_each (populate north_min east_min north_size east_size
                  drone_altitude safety_distance) data grid0 = Return grid.
Proof.
  unfold create_grid, grid_frame. cbv zeta.
  do 7 bind_step. do 2 bind_step. intros Hloop.
  repeat eexists; [done | done].
Qed.

(** [x < x] is false for every float, NaN included. *)
Lemma float_ltb_irrefl (x : float) : (x <? x)%float = false.
Proof.
  rewrite FloatAxioms.ltb_spec. unfold SFltb, SFcompare.
  destruct (Prim2SF x) as [[] | [] | | [] m e]; try done;
    by rewrite Z.compare_refl, Pos.compare_cont_refl.
Qed.

(** C6. In the grid [create_grid] returns, a cell holds 1 exactly when it
    lies in the slice assigned for some obstacle of the table whose
    altitude test holds; the test is [alt - d_alt - safety_distance <
    drone_altitude] and [drone_altitude < alt + d_alt + safety_distance],
    both strict, so it fails at either end of the interval.  The obstacle
    centred at (37, 12, 8) with half sizes (5, 5, 8) passes it at altitude
    5 with safety distance 3, where its 10-by-10 grid is all ones, and not
    at altitude 20, where the grid is all zeros. *)
Theorem create_grid_paints_in_band :
  (∀ data drone_altitude safety_distance grid,
     create_grid data drone_altitude safety_distance = Return grid →
     ∃ north_min east_min north_size east_size,
       grid_frame data = Return (north_min, east_min, north_size, east_size)
       ∧ has_shape north_size east_size grid
       ∧ ∀ i j, 0 ≤ i < north_size → 0 ≤ j < east_size →
           cell_at grid (i, j) = 1 ↔
           ∃ o, o ∈ data
             ∧ in_altitude_band o drone_altitude safety_distance = true
             ∧ covers north_min east_min north_size east_size
                 safety_distance o i j)
  ∧ (∀ o drone_altitude safety_distance,
       in_altitude_band o drone_altitude safety_distance
       = (alt o - d_alt o - safety_distance <? drone_altitude)%float
         && (drone_altitude <? alt o + d_alt o + safety_distance)%float)
  ∧ (∀ o safety_distance,
       in_altitude_band o (alt o + d_alt o + safety_distance) safety_distance
       = false
       ∧ in_altitude_band o (alt o - d_alt o - safety_distance) safety_distance
         = false)
  ∧ in_altitude_band example_obstacle 5 3 = true
  ∧ in_altitude_band example_obstacle 20 3 = false
  ∧ create_grid [example_obstacle] 5 3 = Return (replicate 10 (replicate 10 1))
  ∧ create_grid [example_obstacle] 20 3 = Return (replicate 10 (replicate 10 0)).
Proof.
  split_and!.
  - intros data drone_altitude safety_distance grid Hc.
    destruct (create_grid_frame _ _ _ _ Hc)
      as (nm & em & ns & es & grid0 & Hf & Hz & Hloop).
    destruct (np_zeros_spec _ _ _ Hz) as [Hs0 Hzero].
    destruct (for_each_populate_cells nm em ns es drone_altitude
                safety_distance data grid0 grid Hs0 Hloop) as [Hs Hcells].
    exists nm, em, ns, es. split_and!; [done | done |].
    intros i j Hi Hj. rewrite Hcells by done. rewrite Hzero. split.
    + by intros [? | ?].
    + by right.
  - reflexivity.
  - intros o sd. unfold in_altitude_band.
    by rewrite !float_ltb_irrefl, andb_false_r.
  - by vm_compute.
  - by vm_compute.
  - by vm_compute.
  - by vm_compute.
Qed.

Lemma create_grid_paints_in_band_witness :
  ∃ north_min east_min north_size east_size,
    grid_frame [example_obstacle]
      = Return (north_min, east_min, north_size, east_size)
    ∧ has_shape north_size east_size (replicate 10 (replicate 10 1))
    ∧ ∀ i j, 0 ≤ i < north_size → 0 ≤ j < east_size →
        cell_at (replicate 10 (replicate 10 1)) (i, j) = 1 ↔
        ∃ o, o ∈ [example_obstacle]
          ∧ in_altitude_band o 5 3 = true
          ∧ covers north_min east_min north_size east_size 3 o i j.
Proof.
  apply (proj1 create_grid_paints_in_band [example_obstacle] 5%float 3%float).
  vm_compute. reflexivity.
Defined.

(** * The search is breadth-first *)

Lemma fold_visit_frame cur cc acts : ∀ st,
  (∀ k e, branch st !! k = Some e → inr k ∈ visited st) →
  let st' := fold_left (visit cur cc) acts st in
  (∃ news, queue st' = queue st ++ news
     ∧ (∀ item, item ∈ news → ∃ a, a ∈ acts
          ∧ item = (move cur a, (cc + cost a)%float)
          ∧ (inr (move cur a) ∉ visited st)
          ∧ branch st' !! move cur a = Some ((cc + cost a)%float, cur, a))
     ∧ (∀ a, a ∈ acts → inr (move cur a) ∉ visited st →
          ∃ c, (move cur a, c) ∈ news))
  ∧ (∀ k, inr k ∈ visited st' →
       inr k ∈ visited st ∨ ∃ a, a ∈ acts ∧ k = move cur a)
  ∧ (∀ k e, branch st' !! k = Some e →
       branch st !! k = Some e
       ∨ ((inr k ∉ visited st) ∧ ∃ a, a ∈ acts ∧ k = move cur a
          ∧ e = ((cc + cost a)%float, cur, a)))
  ∧ (∀ k e, branch st !! k = Some e → branch st' !! k = Some e)
  ∧ (∀ k e, branch st' !! k = Some e → inr k ∈ visited st').
Proof.
  induction acts as [| a acts IH]; intros st Hb; simpl.
  { split_and!; [| by left | by left | done | done].
    exists []. rewrite app_nil_r. split_and!; [done | |].
    - intros item Hi. by apply elem_of_nil in Hi.
    - intros a Ha. by apply elem_of_nil in Ha. }
  assert (visited st ⊆ visited (visit cur cc st a)) as Hvs.
  { unfold visit. case_decide; simpl; [done | apply union_subseteq_r]. }
  assert (∀ k e, branch (visit cur cc st a) !! k = Some e →
                 inr k ∈ visited (visit cur cc st a)) as Hb1.
  { unfold visit. case_decide; [done |]. simpl. intros k e.
    rewrite lookup_insert. case_decide as Hk.
    - subst k. intros _. apply elem_of_union_l. by apply elem_of_singleton.
    - intros Hk'. by apply elem_of_union_r, (Hb k e). }
  destruct (IH _ Hb1) as ((news & Hq & Hnews & Hall) & Hv & Hbr & Hmono & Hwf).
  clear IH.
  destruct (decide (inr (move cur a) ∈ visited st)) as [Hin | Hnin].
  - (* nothing happens for [a] *)
    assert (visit cur cc st a = st) as Hst.
    { unfold visit. by rewrite decide_True. }
    rewrite Hst in *. split_and!; [| | | done | done].
    + exists news. split_and!; [done | |].
      * intros item Hi. destruct (Hnews item Hi) as (a' & ? & ? & ? & ?).
        exists a'. split_and!; [by right | done..].
      * intros a' [-> | Ha']%elem_of_cons Hn; [done | by apply Hall].
    + intros k Hk. destruct (Hv k Hk) as [? | (a' & ? & ?)]; [by left |].
      right. exists a'. split; [by right | done].
    + intros k e Hk. destruct (Hbr k e Hk) as [? | (? & a' & ? & ? & ?)];
        [by left |].
      right. split; [done |]. exists a'. split; [by right | done].
  - (* [a] reaches a new cell *)
    assert (branch st !! move cur a = None) as Hnone.
    { destruct (branch st !! move cur a) eqn:E; [| done]. by apply Hb in E. }
    assert (queue (visit cur cc st a)
            = queue st ++ [(move cur a, (cc + cost a)%float)]
            ∧ visited (visit cur cc st a) = {[ inr (move cur a) ]} ∪ visited st
            ∧ branch (visit cur cc st a)
              = <[ move cur a := ((cc + cost a)%float, cur, a) ]> (branch st))
      as (Hq1 & Hv1 & Hb1').
    { unfold visit. by rewrite decide_False. }
    split_and!.
    + exists ((move cur a, (cc + cost a)%float) :: news).
      split_and!.
      * by rewrite Hq, Hq1, <- app_assoc.
      * intros item [-> | Hi]%elem_of_cons.
        -- exists a. split_and!; [by left | done | done |].
           apply Hmono. rewrite Hb1'. apply lookup_insert_eq.
        -- destruct (Hnews item Hi) as (a' & ? & ? & Hn' & ?).
           exists a'. split_and!; [by right | done | | done].
           intros ?. by apply Hn', Hvs.
      * intros a' [-> | Ha']%elem_of_cons Hn; [eexists; by left |].
        destruct (decide (inr (move cur a') ∈ visited (visit cur cc st a)))
          as [Hin' | Hnin'].
        -- rewrite Hv1, elem_of_union, elem_of_singleton in Hin'.
           destruct Hin' as [Heq%(inj inr) | ?]; [| done].
           rewrite Heq. eexists; by left.
        -- destruct (Hall a' Ha' Hnin') as [c ?]. exists c. by right.
    + intros k Hk. destruct (Hv k Hk) as [Hk' | (a' & ? & ?)].
      * rewrite Hv1, elem_of_union, elem_of_singleton in Hk'.
        destruct Hk' as [Heq%(inj inr) | ?]; [| by left].
        right. exists a. split; [by left | done].
      * right. exists a'. split; [by right | done].
    + intros k e Hk. destruct (Hbr k e Hk) as [Hk' | (Hn & a' & ? & ? & ?)].
      * rewrite Hb1', lookup_insert in Hk'. case_decide as Hka.
        -- injection Hk' as <-. subst k. right. split; [done |].
           exists a. split; [by left | done].
        -- by left.
      * right. split; [intros ?; by apply Hn, Hvs |].
        exists a'. split; [by right | done].
    + intros k e Hk. apply Hmono. rewrite Hb1', lookup_insert_ne; [done |].
      intros <-. congruence.
    + done.
Qed.

Lemma traced_functional grid br start n p1 c1 p2 c2 :
  traced grid br start n p1 c1 → traced grid br start n p2 c2 →
  p1 = p2 ∧ c1 = c2.
Proof.
  intros H1. revert p2 c2.
  induction H1 as [n a c Hn _ _ _ | n p a c path cp Hn Hp _ IH _ _ _];
    intros p2 c2 H2; inversion H2; simplify_eq; try done.
  destruct (IH _ _ ltac:(eassumption)) as [-> ->]. done.
Qed.

Lemma traced_mono grid br br' start n path c :
  (∀ k e, br !! k = Some e → br' !! k = Some e) →
  traced grid br start n path c → traced grid br' start n path c.
Proof.
  intros Hsub. induction 1.
  - eapply traced_first; eauto.
  - eapply traced_step; eauto.
Qed.

Lemma walk_nil_inv grid start n : walk grid start [] n → n = start.
Proof.
  inversion 1 as [| path m a _ _ Hp]; [done |].
  by destruct path.
Qed.

(** A walk that ends outside the known cells leaves them somewhere. *)
Lemma walk_leaves_known grid start (st : state) p n :
  walk grid start p n → ¬ (n = start ∨ inr n ∈ visited st) →
  ∃ p1 x a, walk grid start p1 x
    ∧ (x = start ∨ inr x ∈ visited st)
    ∧ is_valid grid x a
    ∧ ¬ (move x a = start ∨ inr (move x a) ∈ visited st)
    ∧ (length p1 < length p)%nat.
Proof.
  induction 1 as [| path n a Hw IH Ha]; intros Hun; [by destruct Hun; left |].
  destruct (decide (n = start ∨ inr n ∈ visited st)) as [Hk | Hk].
  - exists path, n, a. split_and!; try done. rewrite length_app. simpl. lia.
  - destruct (IH Hk) as (p1 & x & a' & ? & ? & ? & ? & ?).
    exists p1, x, a'. split_and!; try done. rewrite length_app. simpl. lia.
Qed.

Lemma is_valid_filter grid c a :
  in_bounds grid c →
  is_valid grid c a ↔ a ∈ filter (λ a, free_dest grid c a) all_actions.
Proof.
  intros Hin. split.
  - intros (acts & Hv & Ha). rewrite valid_actions_filter in Hv by done.
    by injection Hv as <-.
  - intros Ha. eexists. split; [by apply valid_actions_filter | done].
Qed.

Lemma closed_mono grid (st st' : state) k :
  visited st ⊆ visited st' → closed grid st k → closed grid st' k.
Proof. intros Hsub Hc a Ha. by apply Hsub, Hc. Qed.

Lemma has_depth_mono grid start (st st' : state) d item :
  (∀ k e, branch st !! k = Some e → branch st' !! k = Some e) →
  has_depth grid start st d item → has_depth grid start st' d item.
Proof.
  intros Hsub (path & Hp & Hl). exists path. split; [| done].
  by eapply traced_mono.
Qed.

(** One iteration of the loop keeps the breadth-first invariant. *)
Lemma bfs_step grid start cur cc q st :
  bfs_state grid start st → queue st = (cur, cc) :: q →
  bfs_state grid start
    (fold_left (visit cur cc) (filter (λ a, free_dest grid cur a) all_actions)
       {| queue := q; visited := visited st; branch := branch st |}).
Proof.
  intros [Hwf Hstart Hset Hlay Htr Hmin] Hq.
  set (acts := filter (λ a, free_dest grid cur a) all_actions).
  set (st0 := {| queue := q; visited := visited st; branch := branch st |}).
  destruct (wf_queue _ _ _ Hwf cur cc) as [Hin [path0 Hp0]];
    [rewrite Hq; left |].
  assert (wf_state grid start st0) as Hwf0.
  { destruct Hwf as [Hwq Hwb]. split; [| done].
    intros n c Hn. apply Hwq. rewrite Hq. by right. }
  destruct (fold_visit grid start cur cc Hin acts st0)
    as (Hwf1 & _ & Hsub & Hall); [done | | |].
  { intros a Ha. by apply is_valid_filter. }
  { destruct (decide (cur = start)) as [-> | Hne].
    - right; right. done.
    - right; left. eauto. }
  destruct (fold_visit_frame cur cc acts st0 (wf_branch _ _ _ Hwf0))
    as ((news & Hq1 & Hnews & Hnew) & Hv1 & Hb1 & Hbmono & _).
  set (st1 := fold_left (visit cur cc) acts st0) in *.
  simpl in Hsub, Hq1, Hnews, Hnew, Hv1, Hb1, Hbmono.
  (* the head's depth, and the layers behind it *)
  assert (∃ dc pc, traced grid (branch st) start cur pc cc ∧ length pc = dc
            ∧ (∀ item, item ∈ q → ∃ dx, (dc ≤ dx)%nat
                                   ∧ has_depth grid start st dx item)
            ∧ ∃ q1 q2, q = q1 ++ q2
                ∧ Forall (has_depth grid start st dc) q1
                ∧ Forall (has_depth grid start st (S dc)) q2)
    as (dc & pc & Hpc & Hdc & Hbehind & q1 & q2 & Hqq & Hd1 & Hd2).
  { destruct Hlay as (d & l1 & l2 & Hl & Hl1 & Hl2). rewrite Hq in Hl.
    destruct l1 as [| h l1]; simpl in Hl.
    - subst l2. apply Forall_cons in Hl2 as [(pc & Hpc & Hlen) Hl2].
      exists (S d), pc. split_and!; [done | done | |].
      + intros item Hi. exists (S d). split; [done |].
        by eapply (proj1 (Forall_forall _ _) Hl2).
      + exists q, []. split_and!; [by rewrite app_nil_r | done | done].
    - injection Hl as <- ->. apply Forall_cons in Hl1 as [(pc & Hpc & Hlen) Hl1].
      exists d, pc. split_and!; [done | done | |].
      + intros item [Hi | Hi]%elem_of_app.
        * exists d. split; [done |]. by eapply (proj1 (Forall_forall _ _) Hl1).
        * exists (S d). split; [lia |].
          by eapply (proj1 (Forall_forall _ _) Hl2).
      + exists l1, l2. done. }
  (* what a new queue item looks like *)
  assert (∀ a, a ∈ acts → inr (move cur a) ∉ visited st →
            branch st1 !! move cur a = Some ((cc + cost a)%float, cur, a) →
            traced grid (branch st1) start (move cur a) (pc ++ [a])
              (cc + cost a)) as Hnewtr.
  { intros a Ha Hnv Hl. eapply traced_step; eauto.
    - intros ->. apply Hnv, Hstart. by apply is_valid_filter.
    - by eapply traced_mono.
    - by apply is_valid_filter. }
  split.
  - done.
  - by eapply closed_mono.
  - intros k Hk. destruct (Hv1 k Hk) as [Hold | (a & Ha & ->)].
    + destruct (Hset k Hold) as [Hkin [[c Hc] | Hcl]]; split; try done.
      * rewrite Hq in Hc. apply elem_of_cons in Hc as [[= -> ->] | Hc].
        -- right. intros a Ha. apply Hall. by apply is_valid_filter.
        -- left. exists c. rewrite Hq1. apply elem_of_app. by left.
      * right. by eapply closed_mono.
    + assert (is_valid grid cur a) as Hva by (by apply is_valid_filter).
      apply (is_valid_elem grid cur a Hin) in Hva as [Hkin _]. split; [done |].
      destruct (decide (inr (move cur a) ∈ visited st)) as [Hold | Hnv].
      * destruct (Hset _ Hold) as [_ [[c Hc] | Hcl]].
        -- rewrite Hq in Hc. apply elem_of_cons in Hc as [Hc | Hc].
           ++ exfalso. injection Hc as Hc _. by apply (move_neq cur a).
           ++ left. exists c. rewrite Hq1. apply elem_of_app. by left.
        -- right. by eapply closed_mono.
      * destruct (Hnew a Ha Hnv) as [c Hc]. left. exists c. rewrite Hq1.
        apply elem_of_app. by right.
  - exists dc, q1, (q2 ++ news). split_and!.
    + by rewrite Hq1, Hqq, app_assoc.
    + eapply Forall_impl; [exact Hd1 |]. intros item. by apply has_depth_mono.
    + apply Forall_app. split.
      * eapply Forall_impl; [exact Hd2 |]. intros item. by apply has_depth_mono.
      * apply Forall_forall. intros item Hi.
        destruct (Hnews item Hi) as (a & Ha & -> & Hnv & Hl).
        exists (pc ++ [a]). split; [by apply Hnewtr |].
        rewrite length_app. simpl. lia.
  - intros k e Hl. destruct (Hb1 k e Hl) as [Hold | (Hnv & a & Ha & -> & ->)].
    + destruct (Htr k e Hold) as [path Hp]. exists path. by eapply traced_mono.
    + exists (pc ++ [a]). by apply Hnewtr.
  - intros n path c p Hp Hn Hw.
    destruct (traced_lookup _ _ _ _ _ _ Hp) as (pp & a & Hl).
    destruct (Hb1 _ _ Hl) as [Hold | (Hnv & a' & Ha & -> & [= -> -> ->])].
    + destruct (Htr _ _ Hold) as [path' Hp'].
      destruct (traced_functional _ _ _ _ _ _ _ _ Hp
                  (traced_mono _ _ _ _ _ _ _ Hbmono Hp')) as [-> _].
      by eapply Hmin.
    + destruct (traced_functional _ _ _ _ _ _ _ _ Hp (Hnewtr a' Ha Hnv Hl))
        as [-> _].
      rewrite length_app. simpl.
      destruct (walk_leaves_known grid start st p _ Hw)
        as (p1 & x & a2 & Hw1 & Hx & Ha2 & Hun & Hlt).
      { by intros [? | ?]. }
      destruct (decide (x = start)) as [-> | Hxs].
      { exfalso. apply Hun. right. by apply Hstart. }
      destruct Hx as [? | Hx]; [done |].
      destruct (Hset x Hx) as [_ [[cx Hcx] | Hcl]];
        [| exfalso; apply Hun; right; by apply Hcl].
      rewrite Hq in Hcx. apply elem_of_cons in Hcx as [[= -> ->] | Hcx].
      * pose proof (Hmin _ _ _ _ Hpc Hxs Hw1). lia.
      * destruct (Hbehind _ Hcx) as (dx & Hle & (px & Hpx & Hlx)). simpl in *.
        pose proof (Hmin _ _ _ _ Hpx Hxs Hw1). lia.
Qed.

(** The first iteration, which expands [start] with cost 0, establishes
    the invariant. *)
Lemma bfs_first grid start :
  in_bounds grid start →
  bfs_state grid start
    (fold_left (visit start 0%float)
       (filter (λ a, free_dest grid start a) all_actions)
       {| queue := []; visited := set_of_tuple start; branch := ∅ |}).
Proof.
  intros Hin.
  set (acts := filter (λ a, free_dest grid start a) all_actions).
  set (st0 := {| queue := []; visited := set_of_tuple start; branch := ∅ |}).
  assert (∀ k e, branch st0 !! k = Some e → inr k ∈ visited st0) as Hb0.
  { intros k e. simpl. by rewrite lookup_empty. }
  assert (∀ k : Cell, inr k ∉ visited st0) as Hv0.
  { intros k. simpl. unfold set_of_tuple.
    rewrite elem_of_union, !elem_of_singleton. by intros [? | ?]. }
  destruct (fold_visit grid start start 0%float Hin acts st0)
    as (Hwf1 & _ & Hsub & Hall).
  { split; [intros n c Hn; by apply elem_of_nil in Hn | done]. }
  { intros a Ha. by apply is_valid_filter. }
  { by left. }
  destruct (fold_visit_frame start 0%float acts st0 Hb0)
    as ((news & Hq1 & Hnews & Hnew) & Hv1 & Hb1 & Hbmono & _).
  set (st1 := fold_left (visit start 0%float) acts st0) in *.
  simpl in Hq1.
  assert (∀ a, a ∈ acts →
            branch st1 !! move start a = Some ((0 + cost a)%float, start, a) →
            traced grid (branch st1) start (move start a) [a] (0 + cost a))
    as Hnewtr.
  { intros a Ha Hl. eapply traced_first; eauto. by apply is_valid_filter. }
  split.
  - done.
  - intros a Ha. apply Hall. by apply is_valid_filter.
  - intros k Hk. destruct (Hv1 k Hk) as [Hold | (a & Ha & ->)];
      [by apply Hv0 in Hold |].
    assert (is_valid grid start a) as Hva by (by apply is_valid_filter).
    apply (is_valid_elem grid start a Hin) in Hva as [Hkin _]. split; [done |].
    destruct (Hnew a Ha (Hv0 _)) as [c Hc]. left. exists c. by rewrite Hq1.
  - exists 1%nat, news, []. split_and!; [by rewrite Hq1, app_nil_r | | done].
    apply Forall_forall. intros item Hi.
    destruct (Hnews item Hi) as (a & Ha & -> & _ & Hl).
    exists [a]. split; [by apply Hnewtr | done].
  - intros k e Hl. destruct (Hb1 k e Hl) as [Hold | (_ & a & Ha & -> & ->)].
    + simpl in Hold. by rewrite lookup_empty in Hold.
    + exists [a]. by apply Hnewtr.
  - intros n path c p Hp Hn Hw.
    destruct (traced_lookup _ _ _ _ _ _ Hp) as (pp & a & Hl).
    destruct (Hb1 _ _ Hl) as [Hold | (_ & a' & Ha & -> & [= -> -> ->])].
    + simpl in Hold. by rewrite lookup_empty in Hold.
    + destruct (traced_functional _ _ _ _ _ _ _ _ Hp (Hnewtr a' Ha Hl))
        as [-> _].
      destruct p as [| b p]; [| simpl; lia].
      by apply walk_nil_inv in Hw.
Qed.

Lemma search_bfs grid start goal : ∀ fuel st found st',
  bfs_state grid start st →
  search fuel grid goal st = Return (found, st') →
  shortest grid start (branch st')
  ∧ (found = false →
     closed grid st' start
     ∧ ∀ k, inr k ∈ visited st' → in_bounds grid k ∧ closed grid st' k).
Proof.
  induction fuel as [| fuel IH]; intros st found st' Hbfs Hs; [done |].
  simpl in Hs. destruct (queue st) as [| [cur cc] q] eqn:Hq.
  { injection Hs as <- <-. split; [by apply Hbfs |]. intros _.
    split; [by apply Hbfs |]. intros k Hk.
    destruct (bfs_settled _ _ _ Hbfs k Hk) as [? [[c Hc] | ?]]; [| done].
    assert ((k, c) ∈ queue st) as Hc' by exact Hc.
    rewrite Hq in Hc'. by apply elem_of_nil in Hc'. }
  case_decide as Hg.
  { injection Hs as <- <-. split; [by apply Hbfs | done]. }
  destruct (wf_queue _ _ _ (bfs_wf _ _ _ Hbfs) cur cc) as [Hin _];
    [rewrite Hq; left |].
  rewrite valid_actions_filter in Hs by done. cbn [mbind result_bind] in Hs.
  eapply IH; [| exact Hs]. by apply bfs_step.
Qed.

Lemma search_false_goal grid goal : ∀ fuel st st',
  (∀ k e, branch st !! k = Some e → inr k ∈ visited st) →
  search fuel grid goal st = Return (false, st') →
  (∀ c, (goal, c) ∉ queue st)
  ∧ ∀ k, inr k ∈ visited st' → inr k ∈ visited st ∨ k ≠ goal.
Proof.
  induction fuel as [| fuel IH]; intros st st' Hb Hs; [done |].
  simpl in Hs. destruct (queue st) as [| [cur cc] q] eqn:Hq.
  { injection Hs as <-. split; [| by left]. intros c Hc.
    by apply elem_of_nil in Hc. }
  case_decide as Hg; [done |].
  destruct (valid_actions grid cur) as [acts | |]; cbn [mbind result_bind] in Hs;
    [| done..].
  set (st0 := {| queue := q; visited := visited st; branch := branch st |}) in *.
  destruct (fold_visit_frame cur cc acts st0 Hb)
    as ((news & Hq1 & _ & Hnew) & Hv1 & _ & _ & Hb1).
  destruct (IH _ _ Hb1 Hs) as [Hgq Hgv]. simpl in Hq1, Hv1. split.
  - intros c [[= ? _] | Hc]%elem_of_cons; [done |].
    apply (Hgq c). rewrite Hq1. apply elem_of_app. by left.
  - intros k Hk. destruct (Hgv k Hk) as [Hk1 | ?]; [| by right].
    destruct (Hv1 k Hk1) as [? | (a & Ha & ->)]; [by left |].
    destruct (decide (inr (move cur a) ∈ visited st)) as [? | Hnv]; [by left |].
    right. intros Heq. destruct (Hnew a Ha Hnv) as [c Hc].
    apply (Hgq c). rewrite Hq1, <- Heq. apply elem_of_app. by right.
Qed.

Lemma search_init_unfold grid start goal fuel :
  in_bounds grid start → start ≠ goal →
  search (S fuel) grid goal (init start)
  = search fuel grid goal
      (fold_left (visit start 0%float)
         (filter (λ a, free_dest grid start a) all_actions)
         {| queue := []; visited := set_of_tuple start; branch := ∅ |}).
Proof.
  intros Hin Hne. simpl. rewrite decide_False by done.
  by rewrite valid_actions_filter by done.
Qed.

(** Every nonzero offset in {-1,0,1}² is the delta of an action. *)
Lemma offset_action dr dc :
  -1 ≤ dr ≤ 1 → -1 ≤ dc ≤ 1 → (dr, dc) ≠ (0, 0) →
  ∃ a, delta a = (dr, dc).
Proof.
  intros Hr Hc Hne.
  assert (dr = -1 ∨ dr = 0 ∨ dr = 1) as [-> | [-> | ->]] by lia;
    assert (dc = -1 ∨ dc = 0 ∨ dc = 1) as [-> | [-> | ->]] by lia;
    try done;
    [exists UP_LEFL | exists UP | exists UP_RIGHT | exists LEFT | exists RIGHT
     | exists DOWN_LEFT | exists DOWN | exists DOWN_RIGHT]; reflexivity.
Qed.

Lemma free_step_valid grid x y :
  in_bounds grid x → free_step grid x y →
  ∃ a, is_valid grid x a ∧ y = move x a.
Proof.
  intros Hin (dr & dc & Hr & Hc & Hne & -> & Hy & Hfree).
  destruct (offset_action dr dc Hr Hc Hne) as [a Ha].
  exists a. assert (move x a = (x.1 + dr, x.2 + dc)) as Hm.
  { unfold move. by rewrite Ha. }
  split; [| done]. apply (is_valid_elem grid x a Hin). by rewrite Hm.
Qed.

Lemma traced_nonempty grid br start n path c :
  traced grid br start n path c → path ≠ [].
Proof. destruct 1; [done | by destruct path]. Qed.

Lemma init_branch start k e :
  branch (init start) !! k = Some e → inr k ∈ visited (init start).
Proof. simpl. by rewrite lookup_empty. Qed.

(** When the loop gives up, every cell reachable from [start] is marked. *)
Lemma search_false_marks_reachable grid start goal fuel st :
  in_bounds grid start → start ≠ goal →
  search fuel grid goal (init start) = Return (false, st) →
  ∀ y, reachable grid start y → y = start ∨ inr y ∈ visited st.
Proof.
  intros Hin Hne Hs. destruct fuel as [| fuel]; [done |].
  rewrite search_init_unfold in Hs by done.
  destruct (search_bfs grid start goal fuel _ _ _ (bfs_first grid start Hin) Hs)
    as [_ Hcl]. destruct (Hcl eq_refl) as [Hstart Hall].
  intros y0 Hy0.
  eapply (rtc_ind_r (λ y, y = start ∨ inr y ∈ visited st));
    [by left | | exact Hy0].
  intros x y Hx Hstep IH. right. destruct IH as [-> | Hv].
  - destruct (free_step_valid grid start y Hin Hstep) as (a & Ha & ->).
    by apply Hstart.
  - destruct (Hall x Hv) as [Hxin Hxc].
    destruct (free_step_valid grid x y Hxin Hstep) as (a & Ha & ->).
    by apply Hxc.
Qed.

Lemma walk_valid_from grid s p n :
  walk grid s p n ↔ valid_from grid s p ∧ fold_left move p s = n.
Proof.
  split.
  - induction 1 as [| path n a Hw [IH1 IH2] Ha]; [done |].
    rewrite fold_left_app. simpl. rewrite IH2. split; [| done].
    clear Hw. revert s IH1 IH2. induction path as [| b path IHp];
      intros s IH1 IH2; simpl in *.
    + by subst.
    + destruct IH1. split; [done |]. by apply IHp.
  - revert s n. induction p as [| a p IH] using rev_ind; intros s n [Hv He].
    + simpl in He. subst. constructor.
    + rewrite fold_left_app in He. simpl in He. subst n.
      assert (valid_from grid s p
              ∧ is_valid grid (fold_left move p s) a) as [Hv1 Hv2].
      { clear IH. revert s Hv. induction p as [| b p IHp]; intros s Hv;
          simpl in *; [tauto |].
        destruct Hv as [? Hv]. destruct (IHp _ Hv). tauto. }
      constructor; [| done]. by apply IH.
Qed.

Lemma trail_suffix grid c : ∀ path pos,
  c ∈ trail pos path → valid_from grid pos path →
  ∃ p2, valid_from grid c p2
    ∧ fold_left move p2 c = fold_left move path pos
    ∧ (length p2 ≤ length path)%nat.
Proof.
  induction path as [| a rest IH]; intros pos Hc Hv; simpl in *.
  - apply list_elem_of_singleton in Hc as ->. by exists [].
  - destruct Hv as [Ha Hv]. apply elem_of_cons in Hc as [-> | Hc].
    + exists (a :: rest). simpl. split; [done |]. split; [done | lia].
    + destruct (IH _ Hc Hv) as (p2 & ? & ? & ?). exists p2.
      split; [done |]. split; [done | lia].
Qed.

(** A path that goes twice through a cell can be cut short. *)
Lemma trail_cut grid : ∀ path pos,
  valid_from grid pos path → ¬ NoDup (trail pos path) →
  ∃ p', valid_from grid pos p'
    ∧ fold_left move p' pos = fold_left move path pos
    ∧ (length p' < length path)%nat.
Proof.
  induction path as [| a rest IH]; intros pos Hv Hnd; simpl in *.
  - exfalso. apply Hnd. apply NoDup_singleton.
  - destruct Hv as [Ha Hv].
    destruct (decide (pos ∈ trail (move pos a) rest)) as [Hin | Hnin].
    + destruct (trail_suffix grid pos rest _ Hin Hv) as (p2 & ? & ? & ?).
      exists p2. split; [done |]. split; [done | lia].
    + destruct (IH (move pos a) Hv) as (p' & ? & ? & ?).
      { intros Hnd'. apply Hnd. by constructor. }
      exists (a :: p'). simpl. split; [done |]. split; [done | lia].
Qed.

(** [uniform_cost_outcome] together with what the breadth-first order
    gives. *)
Lemma uniform_cost_bfs_outcome grid start goal :
  in_bounds grid start → start ≠ goal →
  ∃ N path c,
    (∀ fuel, (N ≤ fuel)%nat →
       uniform_cost fuel grid start goal = Return (path, c))
    ∧ (path = []
       ∨ (path ≠ [] ∧ walk grid start path goal
          ∧ NoDup (trail start path)
          ∧ ∀ p, walk grid start p goal → (length path ≤ length p)%nat)).
Proof.
  intros Hin Hne.
  destruct (uniform_cost_outcome grid start goal Hin Hne)
    as (N & found & st & path & c & Hrun & Hfound & Hnot).
  exists N, path, c. split; [intros fuel Hf; by apply Hrun |].
  destruct found; [| left; by apply Hnot].
  right. specialize (Hfound eq_refl).
  destruct (Hrun (S N)) as [Hs _]; [lia |].
  rewrite search_init_unfold in Hs by done.
  destruct (search_bfs grid start goal N _ _ _ (bfs_first grid start Hin) Hs)
    as [Hshort _].
  assert (∀ p, walk grid start p goal → (length path ≤ length p)%nat) as Hmin.
  { intros p Hw. eapply Hshort; [exact Hfound | done | done]. }
  pose proof (traced_walk _ _ _ _ _ _ Hfound) as Hw.
  split_and!; [by eapply traced_nonempty | done | | done].
  destruct (decide (NoDup (trail start path))) as [? | Hnd]; [done |].
  exfalso. apply walk_valid_from in Hw as [Hv He].
  destruct (trail_cut grid path start Hv Hnd) as (p' & Hv' & He' & Hlt).
  assert (walk grid start p' goal) as Hw'.
  { apply walk_valid_from. split; [done | congruence]. }
  pose proof (Hmin _ Hw'). lia.
Qed.

Lemma valid_from_trail grid : ∀ path pos,
  in_bounds grid pos → valid_from grid pos path →
  Forall (in_bounds grid) (trail pos path)
  ∧ ∀ p1 a p2, path = p1 ++ a :: p2 → p1 ≠ [] →
      cell_at grid (fold_left move p1 pos) ≠ 1.
Proof.
  induction path as [| a rest IH]; intros pos Hin Hv; simpl in *.
  - split; [apply Forall_cons; split; [done | apply Forall_nil_2] |].
    intros p1 b p2 Hp. by destruct p1.
  - destruct Hv as [Ha Hv].
    apply (is_valid_elem grid pos a Hin) in Ha as [Hin' Hfree].
    destruct (IH _ Hin' Hv) as [Hall Hmid].
    split; [by apply Forall_cons |].
    intros p1 b p2 Hp Hne. destruct p1 as [| a' p1]; [done |].
    injection Hp as -> ->. simpl. destruct p1 as [| a'' p1]; [done |].
    by apply (Hmid (a'' :: p1) b p2).
Qed.

(** X1. The search is complete.  From a start cell on the grid, for a goal
    other than the start that can be reached through free 8-connected
    cells, [uniform_cost] returns (for every fuel above a bound) a
    non-empty path of actions that were valid where they were taken and
    lead from [start] to [goal], with the left-to-right sum of their costs
    as its cost; it never answers [([], 0)] for a reachable goal. *)
Theorem uniform_cost_complete (grid : ndarray) (start goal : Cell) :
  in_bounds grid start → start ≠ goal → reachable grid start goal →
  ∃ N path c,
    (∀ fuel, (N ≤ fuel)%nat →
       uniform_cost fuel grid start goal = Return (path, c))
    ∧ path ≠ [] ∧ walk grid start path goal
    ∧ c = path_cost_sum path.
Proof.
  intros Hin Hne Hreach.
  destruct (uniform_cost_outcome grid start goal Hin Hne)
    as (N & found & st & path & c & Hrun & Hfound & _).
  exists N, path, c. split; [intros fuel Hf; by apply Hrun |].
  destruct found.
  { specialize (Hfound eq_refl). split_and!.
    - by eapply traced_nonempty.
    - by eapply traced_walk.
    - by eapply traced_cost. }
  exfalso. destruct (Hrun N) as [Hs _]; [done |].
  destruct (search_false_marks_reachable grid start goal N st Hin Hne Hs
              goal Hreach) as [? | Hv]; [done |].
  destruct (search_false_goal grid goal N (init start) st
              (init_branch start) Hs) as [_ Hg].
  destruct (Hg goal Hv) as [Hi | ?]; [| done].
  revert Hi. simpl. unfold set_of_tuple.
  rewrite elem_of_union, !elem_of_singleton. by intros [? | ?].
Qed.

Lemma uniform_cost_complete_witness :
  ∃ N path c,
    (∀ fuel, (N ≤ fuel)%nat →
       uniform_cost fuel example_grid (0, 0) (2, 0) = Return (path, c))
    ∧ path ≠ [] ∧ walk example_grid (0, 0) path (2, 0)
    ∧ c = path_cost_sum path.
Proof.
  apply (uniform_cost_complete example_grid (0, 0) (2, 0)).
  - unfold in_bounds, shape0, shape1. simpl. lia.
  - discriminate.
  - apply (rtc_l _ _ (1, 0)); [| apply rtc_once];
      exists 1, 0; unfold in_bounds, shape0, shape1, cell_at; simpl;
      split_and!; try lia; try done.
Defined.

(** X2. The path [uniform_cost] returns has the fewest actions: for a start
    cell on the grid and a goal other than the start, no sequence of valid
    actions from [start] to [goal] is shorter than the returned path.  The
    queue is first-in first-out and is never reordered by cost, so cells
    are expanded in order of their number of moves from the start. *)
Theorem uniform_cost_fewest_actions (grid : ndarray) (start goal : Cell) :
  in_bounds grid start → start ≠ goal →
  ∃ N path c,
    (∀ fuel, (N ≤ fuel)%nat →
       uniform_cost fuel grid start goal = Return (path, c))
    ∧ ∀ p, walk grid start p goal → (length path ≤ length p)%nat.
Proof.
  intros Hin Hne.
  destruct (uniform_cost_outcome grid start goal Hin Hne)
    as (N & found & st & path & c & Hrun & Hfound & Hnot).
  exists N, path, c. split; [intros fuel Hf; by apply Hrun |].
  intros p Hw. destruct found.
  - specialize (Hfound eq_refl).
    destruct (Hrun (S N)) as [Hs _]; [lia |].
    rewrite search_init_unfold in Hs by done.
    destruct (search_bfs grid start goal N _ _ _ (bfs_first grid start Hin) Hs)
      as [Hshort _].
    eapply Hshort; [exact Hfound | done | done].
  - destruct (Hnot eq_refl) as (_ & -> & _). simpl. lia.
Qed.

Lemma uniform_cost_fewest_actions_witness :
  ∃ N path c,
    (∀ fuel, (N ≤ fuel)%nat →
       uniform_cost fuel example_grid (0, 0) (4, 4) = Return (path, c))
    ∧ ∀ p, walk example_grid (0, 0) p (4, 4) → (length path ≤ length p)%nat.
Proof.
  apply (uniform_cost_fewest_actions example_grid (0, 0) (4, 4)).
  - unfold in_bounds, shape0, shape1. simpl. lia.
  - discriminate.
Defined.

(** X3. The returned path never goes through a cell twice: the cells it
    visits from [start], both ends included, are pairwise different. *)
Theorem uniform_cost_no_cell_twice (grid : ndarray) (start goal : Cell) :
  in_bounds grid start → start ≠ goal →
  ∃ N path c,
    (∀ fuel, (N ≤ fuel)%nat →
       uniform_cost fuel grid start goal = Return (path, c))
    ∧ NoDup (trail start path).
Proof.
  intros Hin Hne.
  destruct (uniform_cost_outcome grid start goal Hin Hne)
    as (N & found & st & path & c & Hrun & Hfound & Hnot).
  exists N, path, c. split; [intros fuel Hf; by apply Hrun |].
  destruct found.
  - specialize (Hfound eq_refl).
    destruct (Hrun (S N)) as [Hs _]; [lia |].
    rewrite search_init_unfold in Hs by done.
    destruct (search_bfs grid start goal N _ _ _ (bfs_first grid start Hin) Hs)
      as [Hshort _].
    destruct (decide (NoDup (trail start path))) as [? | Hnd]; [done |].
    exfalso.
    pose proof (traced_walk _ _ _ _ _ _ Hfound) as Hw.
    apply walk_valid_from in Hw as [Hv He].
    destruct (trail_cut grid path start Hv Hnd) as (p' & Hv' & He' & Hlt).
    assert (walk grid start p' goal) as Hw'.
    { apply walk_valid_from. split; [done | congruence]. }
    pose proof (Hshort _ _ _ _ Hfound ltac:(done) Hw'). lia.
  - destruct (Hnot eq_refl) as (_ & -> & _). simpl. apply NoDup_singleton.
Qed.

Lemma uniform_cost_no_cell_twice_witness :
  ∃ N path c,
    (∀ fuel, (N ≤ fuel)%nat →
       uniform_cost fuel example_grid (4, 0) (0, 5) = Return (path, c))
    ∧ NoDup (trail (4, 0) path).
Proof.
  apply (uniform_cost_no_cell_twice example_grid (4, 0) (0, 5)).
  - unfold in_bounds, shape0, shape1. simpl. lia.
  - discriminate.
Defined.

(** X4. The returned path is not always a cheapest one.  On a 4-by-4 grid
    with a wall of two cells, from (0,0) to (3,2), [uniform_cost] returns
    RIGHT, DOWN_RIGHT, DOWN_RIGHT, DOWN_LEFT with cost [1 + 3 * sqrt 2],
    while DOWN, DOWN, DOWN_RIGHT, RIGHT is also a path of valid actions
    between free cells of the grid and costs [3 + sqrt 2]. *)
Theorem uniform_cost_not_cheapest :
  ∃ grid start goal path c p,
    binary grid ∧ in_bounds grid start ∧ in_bounds grid goal
    ∧ cell_at grid start = 0 ∧ cell_at grid goal = 0
    ∧ (∀ fuel, (40 ≤ fuel)%nat →
         uniform_cost fuel grid start goal = Return (path, c))
    ∧ c = path_cost_sum path
    ∧ walk grid start p goal
    ∧ PrimFloat.ltb (path_cost_sum p) c = true.
Proof.
  exists detour_grid, (0, 0), (3, 2),
    [RIGHT; DOWN_RIGHT; DOWN_RIGHT; DOWN_LEFT],
    (path_cost_sum [RIGHT; DOWN_RIGHT; DOWN_RIGHT; DOWN_LEFT]),
    [DOWN; DOWN; DOWN_RIGHT; RIGHT].
  split.
  { unfold binary, detour_grid.
    repeat (apply List.Forall_cons || apply List.Forall_nil); lia. }
  split; [by vm_compute |]. split; [by vm_compute |].
  split; [reflexivity |]. split; [reflexivity |].
  split.
  { intros fuel Hf. apply (uniform_cost_mono _ _ _ 40); [| lia].
    vm_compute. reflexivity. }
  split; [reflexivity |].
  split; [| vm_compute; reflexivity].
  apply walk_valid_from. split; [| reflexivity].
  simpl. split_and!; try done;
    (eexists; split; [vm_compute; reflexivity |];
     apply (bool_decide_unpack _); by vm_compute).
Qed.

(** * Further properties of the grid and of the action model *)

Lemma binary_assign_one n m grid r0 r1 c0 c1 :
  binary grid → binary (assign_one n m grid r0 r1 c0 c1).
Proof.
  unfold binary, assign_one. intros Hb.
  apply Forall_lookup. intros i row. rewrite list_lookup_imap.
  destruct (grid !! i) as [row' |] eqn:Hr; simpl; [| done].
  pose proof (Forall_lookup_1 _ _ _ _ Hb Hr) as Hrow. simpl in Hrow.
  intros [= <-]. case_match; [| done].
  apply Forall_lookup. intros j v. rewrite list_lookup_imap.
  destruct (row' !! j) as [v' |] eqn:Hv; simpl; [| done].
  intros [= <-]. case_match; [by right |].
  by apply (Forall_lookup_1 _ _ _ _ Hrow Hv).
Qed.

Lemma for_each_populate_binary nm em ns es alt sd data : ∀ grid grid',
  binary grid →
  for_each (populate nm em ns es alt sd) data grid = Return grid' →
  binary grid'.
Proof.
  induction data as [| o data IH]; intros grid grid' Hb; simpl.
  - by intros [= <-].
  - destruct (populate nm em ns es alt sd grid o) as [grid1 | |] eqn:Hp;
      cbn; [| done..].
    apply IH. unfold populate in Hp.
    destruct (in_altitude_band o alt sd); [| by injection Hp as <-].
    destruct (footprint nm em ns es sd o) as [[[[o0 o1] o2] o3] | |];
      cbn in Hp; [| done..].
    injection Hp as <-. by apply binary_assign_one.
Qed.

Lemma np_zeros_binary n m grid :
  np_zeros n m = Return grid → binary grid ∧ 0 ≤ n ∧ 0 ≤ m.
Proof.
  unfold np_zeros. destruct (Z.ltb_spec n 0), (Z.ltb_spec m 0); simpl;
    try done.
  intros [= <-]. split; [| lia]. unfold binary.
  apply Forall_replicate, Forall_replicate. by left.
Qed.

(** X8. Whatever [create_grid] returns is a grid the planner's functions
    accept: every cell holds 0 or 1, and the array is rectangular, with
    [shape0] rows of [shape1] cells. *)
Theorem create_grid_binary (data : list Obstacle)
    (drone_altitude safety_distance : float) (grid : ndarray) :
  create_grid data drone_altitude safety_distance = Return grid →
  binary grid ∧ has_shape (shape0 grid) (shape1 grid) grid.
Proof.
  intros Hc.
  destruct (create_grid_frame _ _ _ _ Hc)
    as (nm & em & ns & es & grid0 & Hf & Hz & Hloop).
  destruct (np_zeros_spec _ _ _ Hz) as [Hs0 _].
  destruct (np_zeros_binary _ _ _ Hz) as (Hb0 & Hns & Hes).
  destruct (for_each_populate_cells nm em ns es drone_altitude
              safety_distance data grid0 grid Hs0 Hloop) as [[Hn Hm] _].
  split; [by eapply for_each_populate_binary |].
  unfold has_shape, shape0, shape1. rewrite !Nat2Z.id. split; [done |].
  destruct grid as [| row grid]; [done |].
  apply Forall_cons in Hm as [Hrow Hm]. simpl.
  apply Forall_cons. split; [done |].
  eapply Forall_impl; [exact Hm |]. simpl. intros r Hr. congruence.
Qed.

Lemma create_grid_binary_witness :
  binary (replicate 10 (replicate 10 1))
  ∧ has_shape (shape0 (replicate 10 (replicate 10 1)))
      (shape1 (replicate 10 (replicate 10 1)))
      (replicate 10 (replicate 10 1)).
Proof.
  apply (create_grid_binary [example_obstacle] 5%float 3%float).
  vm_compute. reflexivity.
Defined.

(** X9. The size of the grid depends on the obstacle table only: two calls
    of [create_grid] on the same table, at any two altitudes and with any
    two safety distances, return arrays with the same number of rows and
    the same row lengths.  The safety distance widens the footprints, which
    are clipped to the grid, and never the grid. *)
Theorem create_grid_shape_fixed (data : list Obstacle)
    (alt1 sd1 alt2 sd2 : float) (grid1 grid2 : ndarray) :
  create_grid data alt1 sd1 = Return grid1 →
  create_grid data alt2 sd2 = Return grid2 →
  length grid1 = length grid2
  ∧ Forall2 (λ r1 r2 : list Z, length r1 = length r2) grid1 grid2.
Proof.
  intros H1 H2.
  destruct (create_grid_frame _ _ _ _ H1)
    as (nm & em & ns & es & g1 & Hf1 & Hz1 & Hl1).
  destruct (create_grid_frame _ _ _ _ H2)
    as (nm' & em' & ns' & es' & g2 & Hf2 & Hz2 & Hl2).
  rewrite Hf1 in Hf2. injection Hf2 as <- <- <- <-.
  rewrite Hz1 in Hz2. injection Hz2 as <-.
  destruct (np_zeros_spec _ _ _ Hz1) as [Hs0 _].
  destruct (for_each_populate_cells _ _ _ _ _ _ _ _ _ Hs0 Hl1) as [[Hn1 Hm1] _].
  destruct (for_each_populate_cells _ _ _ _ _ _ _ _ _ Hs0 Hl2) as [[Hn2 Hm2] _].
  split; [congruence |].
  apply Forall2_same_length_lookup_2; [congruence |].
  intros i r1 r2 Hr1 Hr2.
  pose proof (Forall_lookup_1 _ _ _ _ Hm1 Hr1) as E1.
  pose proof (Forall_lookup_1 _ _ _ _ Hm2 Hr2) as E2.
  simpl in *. congruence.
Qed.

Lemma create_grid_shape_fixed_witness :
  length (replicate 10 (replicate 10 1))
  = length (replicate 10 (replicate 10 0))
  ∧ Forall2 (λ r1 r2 : list Z, length r1 = length r2)
      (replicate 10 (replicate 10 1)) (replicate 10 (replicate 10 0)).
Proof.
  apply (create_grid_shape_fixed [example_obstacle]
           5%float 3%float 20%float 3%float).
  - vm_compute. reflexivity.
  - vm_compute. reflexivity.
Defined.

(** X10. On an empty obstacle table [create_grid] raises [ValueError] (the
    minimum of an empty array), at every altitude and safety distance. *)
Theorem create_grid_empty (drone_altitude safety_distance : float) :
  create_grid [] drone_altitude safety_distance = Raise ValueError.
Proof. reflexivity. Qed.

Lemma move_opposite c a : move (move c a) (opposite a) = c.
Proof. destruct c as [x y]. unfold move. destruct a; simpl; f_equal; lia. Qed.

(** X5. Moves between free cells can be undone: when [a] is a valid action
    at a cell of the grid that does not hold 1, the opposite action is
    valid at the cell [a] leads to, and leads back. *)
Theorem valid_actions_reversible (grid : ndarray) (c : Cell) (a : Action) :
  in_bounds grid c → cell_at grid c ≠ 1 → is_valid grid c a →
  is_valid grid (move c a) (opposite a)
  ∧ move (move c a) (opposite a) = c.
Proof.
  intros Hin Hfree Ha. split; [| apply move_opposite].
  apply (is_valid_elem grid c a Hin) in Ha as [Hin' _].
  apply (is_valid_elem grid (move c a) (opposite a) Hin').
  by rewrite move_opposite.
Qed.

Lemma valid_actions_reversible_witness :
  is_valid example_grid (move (2, 2) DOWN_RIGHT) (opposite DOWN_RIGHT)
  ∧ move (move (2, 2) DOWN_RIGHT) (opposite DOWN_RIGHT) = (2, 2).
Proof.
  apply (valid_actions_reversible example_grid (2, 2) DOWN_RIGHT).
  - unfold in_bounds, shape0, shape1. simpl. lia.
  - unfold cell_at. simpl. lia.
  - eexists. split; [vm_compute; reflexivity |].
    apply (bool_decide_unpack _). by vm_compute.
Defined.

(** X7. The eight actions are the eight neighbours: a cell [d] is the
    destination of some action from [c] exactly when it is next to [c]
    (row and column differ by at most 1, not both by 0), and then the
    action is unique. *)
Theorem move_eight_neighbours (c d : Cell) :
  ((∃ a, move c a = d)
   ↔ Z.max (Z.abs (d.1 - c.1)) (Z.abs (d.2 - c.2)) = 1)
  ∧ ∀ a b, move c a = d → move c b = d → a = b.
Proof.
  destruct c as [x y], d as [u v]. simpl. split; [split |].
  - intros [a Ha]. unfold move in Ha.
    destruct a; simpl in Ha; inversion Ha; lia.
  - intros Hd.
    destruct (offset_action (u - x) (v - y)) as [a Ha]; [lia | lia | |].
    { intros [= H1 H2]. lia. }
    exists a. unfold move. rewrite Ha. simpl. f_equal; lia.
  - intros a b Ha Hb. rewrite <- Hb in Ha. clear Hb. unfold move in Ha.
    destruct a, b; simpl in Ha; try done; inversion Ha; lia.
Qed.

Lemma move_eight_neighbours_witness :
  (∃ a, move (2, 2) a = (3, 1))
  ∧ ∀ a b, move (2, 2) a = (3, 1) → move (2, 2) b = (3, 1) → a = b.
Proof.
  split.
  - apply (proj1 (move_eight_neighbours (2, 2) (3, 1))). simpl. lia.
  - apply (proj2 (move_eight_neighbours (2, 2) (3, 1))).
Defined.

Lemma np_index_error size i : size ≤ i → 0 ≤ size → np_index size i = Raise IndexError.
Proof.
  intros H1 H2. unfold np_index.
  destruct (Z.leb_spec 0 i), (Z.ltb_spec i size), (Z.leb_spec (- size) i),
    (Z.ltb_spec i 0); simpl; try done; lia.
Qed.

Lemma is_obstacle_row_error grid i j :
  shape0 grid ≤ i → is_obstacle grid i j = Raise IndexError.
Proof.
  intros Hi. unfold is_obstacle, getitem.
  rewrite (np_index_error (shape0 grid) i) by (first [done | unfold shape0; lia]). reflexivity.
Qed.

Lemma is_obstacle_col_error grid i j :
  - shape0 grid ≤ i < shape0 grid → shape1 grid ≤ j →
  is_obstacle grid i j = Raise IndexError.
Proof.
  intros Hi Hj. unfold is_obstacle, getitem.
  destruct (np_index (shape0 grid) i) as [r | e |] eqn:Hr; cbn.
  - rewrite (np_index_error (shape1 grid) j) by (first [done | unfold shape1; lia]). reflexivity.
  - unfold np_index in Hr. repeat case_match; try done. by injection Hr as <-.
  - unfold np_index in Hr. repeat case_match; done.
Qed.

(** A cell beyond the last row or column by more than one: the first read
    of a neighbour is out of range. *)
Lemma valid_actions_raises (grid : ndarray) (x y : Z) :
  shape0 grid < x ∨ (0 ≤ x < shape0 grid ∧ shape1 grid < y) →
  valid_actions grid (x, y) = Raise IndexError.
Proof.
  assert (0 ≤ shape0 grid) as Hn by (unfold shape0; lia).
  assert (0 ≤ shape1 grid) as Hm by (unfold shape1; lia).
  intros [Hx | [Hx Hy]]; unfold valid_actions.
  - replace (x - 1 <? 0) with false by (symmetry; apply Z.ltb_ge; lia).
    cbn [por]. rewrite (is_obstacle_row_error grid (x - 1) y) by lia.
    reflexivity.
  - destruct (Z.ltb_spec (x - 1) 0) as [Hx0 | Hx0]; cbn [por].
    + destruct (Z.ltb_spec (shape0 grid - 1) (x + 1)) as [Hx1 | Hx1];
        cbn [por].
      * replace (y - 1 <? 0) with false by (symmetry; apply Z.ltb_ge; lia).
        cbn [por]. rewrite (is_obstacle_col_error grid x (y - 1)) by lia.
        reflexivity.
      * rewrite (is_obstacle_col_error grid (x + 1) y) by lia.
        reflexivity.
    + rewrite (is_obstacle_col_error grid (x - 1) y) by lia. reflexivity.
Qed.

(** X6. Off the grid [valid_actions] fails rather than answer with an empty
    list: at a cell whose row is greater than the number of rows, or whose
    row is on the grid and whose column is greater than the number of
    columns, the first read of a neighbour raises [IndexError]. *)
Theorem valid_actions_off_grid (grid : ndarray) (x y : Z) :
  shape0 grid < x ∨ (0 ≤ x < shape0 grid ∧ shape1 grid < y) →
  valid_actions grid (x, y) = Raise IndexError.
Proof.
  exact (valid_actions_raises grid x y).
Qed.

Lemma valid_actions_off_grid_witness :
  valid_actions example_grid (6, 0) = Raise IndexError
  ∧ valid_actions example_grid (0, 7) = Raise IndexError.
Proof.
  split.
  - apply (valid_actions_off_grid example_grid 6 0).
    left. unfold shape0. simpl. lia.
  - apply (valid_actions_off_grid example_grid 0 7).
    right. unfold shape0, shape1. simpl. lia.
Defined.

(** X19. A start cell off the grid beyond the last row or column is not a
    silent failure: when the row of [start] is greater than the number of
    rows, or its row is on the grid and its column greater than the number
    of columns, [uniform_cost] raises [IndexError] in the first iteration
    of the loop, for every goal other than [start]. *)
Theorem uniform_cost_off_grid_start (grid : ndarray) (start goal : Cell)
    (fuel : nat) :
  shape0 grid < start.1
  ∨ (0 ≤ start.1 < shape0 grid ∧ shape1 grid < start.2) →
  start ≠ goal →
  uniform_cost (S fuel) grid start goal = Raise IndexError.
Proof.
  intros Hoff Hne. destruct start as [x y]. unfold uniform_cost.
  cbn [search init queue visited branch].
  rewrite decide_False by done.
  by rewrite (valid_actions_raises grid x y Hoff).
Qed.

Lemma uniform_cost_off_grid_start_witness :
  uniform_cost 1 example_grid (6, 0) (4, 4) = Raise IndexError.
Proof.
  apply (uniform_cost_off_grid_start example_grid (6, 0) (4, 4) 0).
  - left. unfold shape0. simpl. lia.
  - discriminate.
Defined.

(** * Properties of the rendering *)

Lemma np_index_indexable n i :
  (indexable n i → ∃ r, np_index n i = Return r ∧ (Z.of_nat r < n))
  ∧ (¬ indexable n i → np_index n i = Raise IndexError).
Proof.
  unfold indexable, np_index. split.
  - intros Hi. destruct (Z.leb_spec 0 i), (Z.ltb_spec i n); simpl;
      try (eexists; split; [done | lia]);
      destruct (Z.leb_spec (- n) i), (Z.ltb_spec i 0); simpl;
      try lia; eexists; split; try done; lia.
  - intros Hi. destruct (Z.leb_spec 0 i), (Z.ltb_spec i n); simpl; try lia;
      destruct (Z.leb_spec (- n) i), (Z.ltb_spec i 0); simpl; try lia; done.
Qed.

Lemma np_index_inside n i :
  0 ≤ i < n → np_index n i = Return (Z.to_nat i).
Proof.
  intros Hi. unfold np_index.
  by destruct (Z.leb_spec 0 i), (Z.ltb_spec i n); try lia.
Qed.

Lemma hd_insert_length {A} (l : list (list A)) r row :
  length row = length (nth r l []) →
  length (hd [] (<[ r := row ]> l)) = length (hd [] l).
Proof. destruct l as [| x l]; [done |]. destruct r; simpl; congruence. Qed.

(** Writing one entry keeps the shape; it fails exactly on an index numpy
    does not accept. *)
Lemma str_setitem_result sgrid i j s :
  (indexable (Z.of_nat (length sgrid)) i
   ∧ indexable (Z.of_nat (length (hd [] sgrid))) j →
   ∃ sgrid', str_setitem sgrid i j s = Return sgrid'
     ∧ length sgrid' = length sgrid
     ∧ length (hd [] sgrid') = length (hd [] sgrid))
  ∧ (¬ (indexable (Z.of_nat (length sgrid)) i
        ∧ indexable (Z.of_nat (length (hd [] sgrid))) j) →
     str_setitem sgrid i j s = Raise IndexError).
Proof.
  unfold str_setitem. split.
  - intros [Hi Hj].
    destruct (proj1 (np_index_indexable _ _) Hi) as (r & -> & _).
    destruct (proj1 (np_index_indexable _ _) Hj) as (c & -> & _).
    cbn. eexists. split_and!; [done | by rewrite length_insert |].
    apply hd_insert_length. by rewrite length_insert.
  - intros Hn.
    destruct (decide (indexable (Z.of_nat (length sgrid)) i)) as [Hi | Hi].
    + destruct (proj1 (np_index_indexable _ _) Hi) as (r & -> & _). cbn.
      rewrite (proj2 (np_index_indexable _ _)); [done | tauto].
    + by rewrite (proj2 (np_index_indexable _ _) Hi).
Qed.

Lemma draw_result (N M : nat) : ∀ path sgrid pos,
  length sgrid = N → length (hd [] sgrid) = M →
  let ok := λ c : Cell, indexable (Z.of_nat N) c.1 ∧ indexable (Z.of_nat M) c.2 in
  (Forall ok (trail pos path) →
   ∃ sgrid',
     ('(sg, p) ← draw sgrid pos path ; str_setitem sg p.1 p.2 "G")
     = Return sgrid'
     ∧ length sgrid' = N ∧ length (hd [] sgrid') = M)
  ∧ (¬ Forall ok (trail pos path) →
     ('(sg, p) ← draw sgrid pos path ; str_setitem sg p.1 p.2 "G")
     = Raise IndexError).
Proof.
  induction path as [| a rest IH]; intros sgrid pos HN HM ok; simpl.
  - destruct (str_setitem_result sgrid pos.1 pos.2 "G") as [Hok Herr].
    rewrite HN, HM in Hok, Herr. split.
    + intros [Hp _]%Forall_cons. destruct (Hok Hp) as (sg' & ? & ? & ?).
      exists sg'. split_and!; congruence.
    + intros Hn. apply Herr. intros Hp. apply Hn.
      apply Forall_cons. split; [done | apply Forall_nil_2].
  - destruct (str_setitem_result sgrid pos.1 pos.2 (str a)) as [Hok Herr].
    rewrite HN, HM in Hok, Herr.
    destruct (decide (ok pos)) as [Hp | Hp].
    + destruct (Hok Hp) as (sg1 & -> & H1 & H2). cbn.
      destruct (IH sg1 (move pos a)) as [IH1 IH2]; [congruence.. |].
      split.
      * intros [_ Hrest]%Forall_cons. by apply IH1.
      * intros Hn. apply IH2. intros Hrest. apply Hn. by constructor.
    + rewrite (Herr Hp). cbn. split; [| done].
      by intros [? _]%Forall_cons.
Qed.

Lemma initial_sgrid_shape (grid : ndarray) :
  let sgrid :=
    zip_with (zip_with (λ v s, if v =? 1 then "O"%string else s)) grid
      (map (map (λ _, " "%string)) (map (map (λ _, ""%string)) grid)) in
  length sgrid = length grid
  ∧ length (hd [] sgrid) = length (hd [] grid).
Proof.
  destruct grid as [| row grid]; [done |]. simpl. split.
  - by rewrite length_zip_with, !length_map, Nat.min_id.
  - by rewrite length_zip_with, !length_map, Nat.min_id.
Qed.

Lemma start_on_trail pos path : pos ∈ trail pos path.
Proof. destruct path; simpl; by left. Qed.

(** X11. [visualize_path] returns exactly when every cell the path goes
    through from [start] (both ends included) is an index numpy accepts,
    that is, when its row lies in [[-shape0, shape0)] and its column in
    [[-shape1, shape1)]; the array it returns has the shape of the grid.
    Otherwise it raises [IndexError]. *)
Theorem visualize_path_index_error (grid : ndarray) (path : list Action)
    (start : Cell) :
  let ok := λ c : Cell,
    - shape0 grid ≤ c.1 < shape0 grid ∧ - shape1 grid ≤ c.2 < shape1 grid in
  (Forall ok (trail start path) →
   ∃ sgrid, visualize_path grid path start = Return sgrid
     ∧ length sgrid = length grid
     ∧ length (hd [] sgrid) = length (hd [] grid))
  ∧ (¬ Forall ok (trail start path) →
     visualize_path grid path start = Raise IndexError).
Proof.
  intros ok. unfold visualize_path.
  destruct (initial_sgrid_shape grid) as [H0 H1].
  set (sg0 := zip_with _ grid _) in *.
  destruct (draw_result (length grid) (length (hd [] grid)) path sg0 start H0 H1)
    as [Hok Herr].
  assert (∀ r : result (list (list string) * Cell),
    ('(sgrid, pos) ← r ;
     sgrid ← str_setitem sgrid pos.1 pos.2 "G" ;
     sgrid ← str_setitem sgrid start.1 start.2 "S" ; Return sgrid)
    = (sgrid ← ('(sg, p) ← r ; str_setitem sg p.1 p.2 "G") ;
       sgrid ← str_setitem sgrid start.1 start.2 "S" ; Return sgrid)) as Hassoc.
  { intros [[sg p] | |]; done. }
  rewrite Hassoc. split.
  - intros Hall. destruct (Hok Hall) as (sg1 & -> & HN & HM). cbn.
    destruct (str_setitem_result sg1 start.1 start.2 "S") as [Hok' _].
    rewrite HN, HM in Hok'.
    destruct Hok' as (sg2 & -> & ? & ?).
    { eapply (proj1 (Forall_forall _ _) Hall), start_on_trail. }
    cbn. exists sg2. split_and!; congruence.
  - intros Hn. by rewrite (Herr Hn).
Qed.

Lemma visualize_path_index_error_witness :
  (∃ sgrid, visualize_path example_grid [DOWN; RIGHT] (3, 0) = Return sgrid
     ∧ length sgrid = length example_grid
     ∧ length (hd [] sgrid) = length (hd [] example_grid))
  ∧ visualize_path example_grid [DOWN; DOWN] (3, 0) = Raise IndexError.
Proof.
  split.
  - apply (proj1 (visualize_path_index_error example_grid [DOWN; RIGHT] (3, 0))).
    unfold shape0, shape1. simpl.
    repeat (apply List.Forall_cons || apply List.Forall_nil); simpl; lia.
  - apply (proj2 (visualize_path_index_error example_grid [DOWN; DOWN] (3, 0))).
    unfold shape0, shape1. simpl. intros H.
    apply Forall_cons in H as [_ H]. apply Forall_cons in H as [_ H].
    apply Forall_cons in H as [[H _] _]. simpl in H. lia.
Defined.

Lemma rect_hd {A} (N M : nat) (l : list (list A)) :
  rect N M l → (0 < N)%nat → length (hd [] l) = M.
Proof.
  intros [HN HM] Hpos. destruct l as [| row l]; [simpl in HN; lia |].
  by apply Forall_cons in HM as [? _].
Qed.

Lemma rect_nth {A} (N M : nat) (l : list (list A)) r :
  rect N M l → (r < N)%nat → l !! r = Some (nth r l []) ∧ length (nth r l []) = M.
Proof.
  intros [HN HM] Hr.
  destruct (lookup_lt_is_Some_2 l r) as [row Hrow]; [lia |].
  rewrite (nth_lookup_Some _ _ _ _ Hrow). split; [done |].
  by apply (Forall_lookup_1 _ _ _ _ HM Hrow).
Qed.

(** Writing at a cell of the array changes that cell only. *)
Lemma str_setitem_inside (N M : nat) sgrid i j s :
  rect N M sgrid → 0 ≤ i < Z.of_nat N → 0 ≤ j < Z.of_nat M →
  ∃ sgrid', str_setitem sgrid i j s = Return sgrid'
    ∧ rect N M sgrid'
    ∧ ∀ c : Cell, 0 ≤ c.1 → 0 ≤ c.2 →
        glyph_at sgrid' c = if decide (c = (i, j)) then s else glyph_at sgrid c.
Proof.
  intros Hrect Hi Hj. pose proof Hrect as [HN HM].
  unfold str_setitem.
  rewrite HN, (rect_hd N M sgrid Hrect) by lia.
  rewrite !np_index_inside by done. cbn.
  destruct (rect_nth N M sgrid (Z.to_nat i) Hrect) as [Hrow Hlen]; [lia |].
  set (row := nth (Z.to_nat i) sgrid []) in *.
  eexists. split; [done |]. split.
  - split; [by rewrite length_insert |].
    apply Forall_insert; [done | by rewrite length_insert].
  - intros [ci cj] Hci Hcj. simpl in Hci, Hcj. unfold glyph_at. simpl.
    case_decide as Hc.
    + injection Hc as -> ->.
      rewrite (nth_lookup_Some _ _ _ (<[Z.to_nat j:=s]> row)).
      * apply nth_lookup_Some, list_lookup_insert_eq. lia.
      * apply list_lookup_insert_eq. lia.
    + destruct (decide (ci = i)) as [-> | Hne].
      * rewrite (nth_lookup_Some _ _ _ (<[Z.to_nat j:=s]> row));
          [| apply list_lookup_insert_eq; lia].
        fold row. rewrite !nth_lookup, list_lookup_insert_ne; [done |].
        intros Heq. apply Hc. f_equal. lia.
      * rewrite (nth_lookup (<[_ := _]> sgrid)), list_lookup_insert_ne by lia.
        by rewrite <- nth_lookup.
Qed.

Lemma draw_inside (N M : nat) : ∀ path sgrid pos,
  rect N M sgrid →
  Forall (λ c : Cell, 0 ≤ c.1 < Z.of_nat N ∧ 0 ≤ c.2 < Z.of_nat M)
    (trail pos path) →
  ∃ sgrid', draw sgrid pos path = Return (sgrid', fold_left move path pos)
    ∧ rect N M sgrid'
    ∧ ∀ c : Cell, 0 ≤ c.1 → 0 ≤ c.2 →
        glyph_at sgrid' c = default (glyph_at sgrid c) (arrow_at pos path c).
Proof.
  induction path as [| a rest IH]; intros sgrid pos Hrect Hall; simpl.
  - exists sgrid. done.
  - apply Forall_cons in Hall as [[Hp1 Hp2] Hrest].
    destruct (str_setitem_inside N M sgrid pos.1 pos.2 (str a) Hrect Hp1 Hp2)
      as (sg1 & -> & Hrect1 & Hg1). cbn.
    destruct (IH sg1 (move pos a) Hrect1 Hrest) as (sg2 & -> & Hrect2 & Hg2).
    exists sg2. split_and!; [done | done |].
    intros c Hc1 Hc2. rewrite Hg2, Hg1 by done.
    destruct (arrow_at (move pos a) rest c); [done |].
    destruct pos as [p1 p2]. simpl.
    destruct (decide (c = (p1, p2))) as [-> | Hne].
    + by rewrite decide_True.
    + by rewrite decide_False.
Qed.

Lemma arrow_at_off_trail c : ∀ path pos,
  c ∉ trail pos path → arrow_at pos path c = None.
Proof.
  induction path as [| a rest IH]; intros pos Hc; [done |].
  simpl in *. apply not_elem_of_cons in Hc as [Hne Hc].
  rewrite (IH _ Hc). by rewrite decide_False.
Qed.

Lemma end_on_trail : ∀ path pos, fold_left move path pos ∈ trail pos path.
Proof.
  induction path as [| a rest IH]; intros pos; simpl; [by left |].
  right. apply IH.
Qed.

(** On a path that goes through no cell twice, the arrow at the cell where
    an action is taken is that action's. *)
Lemma arrow_at_simple : ∀ p1 pos a p2,
  NoDup (trail pos (p1 ++ a :: p2)) →
  arrow_at pos (p1 ++ a :: p2) (fold_left move p1 pos) = Some (str a).
Proof.
  induction p1 as [| b p1 IH]; intros pos a p2 Hnd; simpl in *.
  - apply NoDup_cons in Hnd as [Hnin _].
    rewrite (arrow_at_off_trail _ _ _ Hnin). by rewrite decide_True.
  - apply NoDup_cons in Hnd as [_ Hnd]. by rewrite (IH _ _ _ Hnd).
Qed.

Lemma has_shape_rect (grid : ndarray) :
  has_shape (shape0 grid) (shape1 grid) grid →
  rect (length grid) (length (hd [] grid)) grid.
Proof.
  unfold has_shape, shape0, shape1. rewrite !Nat2Z.id. by intros [_ ?].
Qed.

Lemma initial_sgrid_glyph (grid : ndarray) :
  let sgrid :=
    zip_with (zip_with (λ v s, if v =? 1 then "O"%string else s)) grid
      (map (map (λ _, " "%string)) (map (map (λ _, ""%string)) grid)) in
  has_shape (shape0 grid) (shape1 grid) grid →
  rect (length grid) (length (hd [] grid)) sgrid
  ∧ ∀ c, in_bounds grid c →
      glyph_at sgrid c = if cell_at grid c =? 1 then "O"%string else " "%string.
Proof.
  intros sgrid Hs. apply has_shape_rect in Hs as Hrect.
  assert (∀ i row, grid !! i = Some row →
            sgrid !! i
            = Some (zip_with (λ v s, if v =? 1 then "O"%string else s) row
                      (map (λ _, " "%string) (map (λ _, ""%string) row))))
    as Hrow.
  { intros i row Hi. subst sgrid.
    rewrite lookup_zip_with, Hi. simpl.
    by rewrite !list_lookup_fmap, Hi. }
  split.
  - split.
    + subst sgrid. by rewrite length_zip_with, !length_map, Nat.min_id.
    + apply Forall_lookup. intros i srow Hi.
      destruct (grid !! i) as [row |] eqn:Hg.
      * rewrite (Hrow _ _ Hg) in Hi. injection Hi as <-.
        rewrite length_zip_with, !length_map, Nat.min_id.
        by apply (Forall_lookup_1 _ _ _ _ (proj2 Hrect) Hg).
      * subst sgrid. rewrite lookup_zip_with, Hg in Hi. done.
  - intros [ci cj] [[? ?] [? ?]]. simpl in *. unfold shape0, shape1 in *.
    destruct (rect_nth _ _ grid (Z.to_nat ci) Hrect) as [Hg Hlen]; [lia |].
    set (row := nth (Z.to_nat ci) grid []) in *.
    destruct (lookup_lt_is_Some_2 row (Z.to_nat cj)) as [v Hv]; [lia |].
    unfold glyph_at, cell_at. simpl. fold row.
    rewrite (nth_lookup_Some _ _ _ _ Hv).
    rewrite (nth_lookup_Some _ _ _ _ (Hrow _ _ Hg)).
    apply nth_lookup_Some.
    rewrite lookup_zip_with, Hv. simpl. by rewrite !list_lookup_fmap, Hv.
Qed.

Lemma mid_on_trail : ∀ p1 pos rest,
  fold_left move p1 pos ∈ trail pos (p1 ++ rest).
Proof.
  induction p1 as [| b p1 IH]; intros pos rest; simpl.
  - apply start_on_trail.
  - right. apply IH.
Qed.

Lemma mid_not_end : ∀ p1 pos a p2,
  NoDup (trail pos (p1 ++ a :: p2)) →
  fold_left move p1 pos ≠ fold_left move (p1 ++ a :: p2) pos.
Proof.
  induction p1 as [| b p1 IH]; intros pos a p2 Hnd; simpl in *.
  - apply NoDup_cons in Hnd as [Hnin _]. intros Heq. apply Hnin.
    pose proof (end_on_trail p2 (move pos a)) as Hend.
    by rewrite <- Heq in Hend.
  - apply NoDup_cons in Hnd as [_ Hnd]. by apply IH.
Qed.

(** What the rendering shows when the whole trail is on a rectangular
    grid. *)
Lemma visualize_path_glyphs (grid : ndarray) (path : list Action)
    (start : Cell) :
  has_shape (shape0 grid) (shape1 grid) grid →
  Forall (in_bounds grid) (trail start path) →
  ∃ sgrid, visualize_path grid path start = Return sgrid
    ∧ rect (length grid) (length (hd [] grid)) sgrid
    ∧ glyph_at sgrid start = "S"%string
    ∧ (fold_left move path start ≠ start →
       glyph_at sgrid (fold_left move path start) = "G"%string)
    ∧ (∀ c, in_bounds grid c → c ∉ trail start path →
         glyph_at sgrid c = if cell_at grid c =? 1 then "O"%string else " "%string)
    ∧ (NoDup (trail start path) →
       ∀ p1 a p2, path = p1 ++ a :: p2 → p1 ≠ [] →
         glyph_at sgrid (fold_left move p1 start) = str a).
Proof.
  intros Hs Hall. unfold visualize_path.
  destruct (initial_sgrid_glyph grid Hs) as [Hrect0 Hg0].
  set (sg0 := zip_with _ grid _) in *.
  assert (Forall (λ c : Cell, 0 ≤ c.1 < Z.of_nat (length grid)
                              ∧ 0 ≤ c.2 < Z.of_nat (length (hd [] grid)))
            (trail start path)) as Hall' by exact Hall.
  assert (∀ c, c ∈ trail start path → in_bounds grid c) as Hon.
  { intros c. by apply (proj1 (Forall_forall _ _) Hall). }
  pose proof (Hon _ (start_on_trail start path)) as Hstart.
  pose proof (Hon _ (end_on_trail path start)) as Hend.
  destruct (draw_inside _ _ path sg0 start Hrect0 Hall')
    as (sg1 & -> & Hrect1 & Hg1). cbn.
  destruct (str_setitem_inside _ _ sg1 (fold_left move path start).1
              (fold_left move path start).2 "G" Hrect1)
    as (sg2 & -> & Hrect2 & Hg2); [apply Hend.. |]. cbn.
  destruct (str_setitem_inside _ _ sg2 start.1 start.2 "S" Hrect2)
    as (sg3 & -> & Hrect3 & Hg3); [apply Hstart.. |]. cbn.
  assert (∀ c : Cell, (c.1, c.2) = c) as Heta by (by intros []).
  rewrite Heta in Hg2, Hg3.
  exists sg3. split_and!; [done | done | | | |].
  - rewrite Hg3 by apply Hstart. by rewrite decide_True.
  - intros Hne. rewrite Hg3, Hg2 by apply Hend.
    by rewrite decide_False, decide_True.
  - intros c Hc Hoff. rewrite Hg3, Hg2, Hg1 by apply Hc.
    rewrite decide_False, decide_False.
    + by rewrite (arrow_at_off_trail _ _ _ Hoff), Hg0.
    + intros ->. apply Hoff, end_on_trail.
    + intros ->. apply Hoff, start_on_trail.
  - intros Hnd p1 a p2 -> Hp1.
    pose proof (mid_on_trail p1 start (a :: p2)) as Hmid.
    rewrite Hg3, Hg2, Hg1 by apply (Hon _ Hmid).
    rewrite decide_False, decide_False.
    + by rewrite (arrow_at_simple _ _ _ _ Hnd).
    + by apply mid_not_end.
    + destruct p1 as [| b p1]; [done |]. simpl in *.
      apply NoDup_cons in Hnd as [Hnin _]. intros Heq. apply Hnin.
      pose proof (mid_on_trail p1 (move start b) (a :: p2)) as Hmid'.
      by rewrite Heq in Hmid'.
Qed.

(** X12. What the rendering shows.  On a rectangular grid, when every cell
    the path goes through is on the grid, [visualize_path] returns an array
    of the grid's shape in which the start cell shows S (even where the
    path ends or comes back there), the end of the path shows G unless it
    is the start, every cell off the path shows O where the grid holds 1
    and a blank elsewhere, and, when the path goes through no cell twice,
    every cell strictly between the two ends shows the arrow of the action
    taken from it. *)
Theorem visualize_path_marks (grid : ndarray) (path : list Action)
    (start : Cell) :
  has_shape (shape0 grid) (shape1 grid) grid →
  Forall (in_bounds grid) (trail start path) →
  ∃ sgrid, visualize_path grid path start = Return sgrid
    ∧ rect (length grid) (length (hd [] grid)) sgrid
    ∧ glyph_at sgrid start = "S"%string
    ∧ (fold_left move path start ≠ start →
       glyph_at sgrid (fold_left move path start) = "G"%string)
    ∧ (∀ c, in_bounds grid c → c ∉ trail start path →
         glyph_at sgrid c = if cell_at grid c =? 1 then "O"%string else " "%string)
    ∧ (NoDup (trail start path) →
       ∀ p1 a p2, path = p1 ++ a :: p2 → p1 ≠ [] →
         glyph_at sgrid (fold_left move p1 start) = str a).
Proof.
  exact (visualize_path_glyphs grid path start).
Qed.

Lemma visualize_path_marks_witness :
  ∃ sgrid,
    visualize_path example_grid
      [DOWN; DOWN; DOWN; DOWN_RIGHT; RIGHT; UP_RIGHT; DOWN_RIGHT] (0, 0)
    = Return sgrid
    ∧ rect (length example_grid) (length (hd [] example_grid)) sgrid
    ∧ glyph_at sgrid (0, 0) = "S"%string
    ∧ glyph_at sgrid (4, 4) = "G"%string
    ∧ glyph_at sgrid (0, 1) = "O"%string.
Proof.
  destruct (visualize_path_marks example_grid
              [DOWN; DOWN; DOWN; DOWN_RIGHT; RIGHT; UP_RIGHT; DOWN_RIGHT] (0, 0))
    as (sgrid & Hr & Hrect & HS & HG & HO & _).
  - split; [reflexivity |].
    repeat (apply List.Forall_cons || apply List.Forall_nil); reflexivity.
  - unfold in_bounds, shape0, shape1. simpl.
    repeat (apply List.Forall_cons || apply List.Forall_nil); simpl; lia.
  - exists sgrid. split_and!; [exact Hr | exact Hrect | exact HS | |].
    + apply HG. discriminate.
    + apply (HO (0, 1)).
      * unfold in_bounds, shape0, shape1. simpl. lia.
      * apply (bool_decide_unpack _). by vm_compute.
Defined.

(** X13. A planned path can always be drawn.  On a rectangular grid, from a
    start cell on the grid and for a goal other than the start,
    [visualize_path] applied to the path [uniform_cost] returns raises no
    error; the start cell shows S, the goal shows G when a path was
    found, and every cell strictly between them on the path shows the arrow
    of the action taken there and is not an obstacle. *)
Theorem visualize_uniform_cost (grid : ndarray) (start goal : Cell) :
  has_shape (shape0 grid) (shape1 grid) grid →
  in_bounds grid start → start ≠ goal →
  ∃ N path c sgrid,
    (∀ fuel, (N ≤ fuel)%nat →
       uniform_cost fuel grid start goal = Return (path, c))
    ∧ visualize_path grid path start = Return sgrid
    ∧ glyph_at sgrid start = "S"%string
    ∧ (path ≠ [] → glyph_at sgrid goal = "G"%string)
    ∧ ∀ p1 a p2, path = p1 ++ a :: p2 → p1 ≠ [] →
        glyph_at sgrid (fold_left move p1 start) = str a
        ∧ cell_at grid (fold_left move p1 start) ≠ 1.
Proof.
  intros Hs Hin Hne.
  destruct (uniform_cost_bfs_outcome grid start goal Hin Hne)
    as (N & path & c & Hrun & Hpath).
  assert (valid_from grid start path
          ∧ (path ≠ [] → fold_left move path start = goal)
          ∧ NoDup (trail start path)) as (Hv & He & Hnd).
  { destruct Hpath as [-> | (? & Hw & ? & _)].
    - split_and!; [done | done | apply NoDup_singleton].
    - apply walk_valid_from in Hw as [? ?]. done. }
  destruct (valid_from_trail grid path start Hin Hv) as [Hall Hfree].
  destruct (visualize_path_glyphs grid path start Hs Hall)
    as (sg & Hvis & _ & HS & HG & _ & Harrow).
  exists N, path, c, sg. split_and!; [done | done | done | |].
  - intros Hp. rewrite <- (He Hp). apply HG. rewrite (He Hp). congruence.
  - intros p1 a p2 Hp Hp1. split; [by eapply Harrow | by eapply Hfree].
Qed.

Lemma visualize_uniform_cost_witness :
  ∃ N path c sgrid,
    (∀ fuel, (N ≤ fuel)%nat →
       uniform_cost fuel example_grid (0, 0) (4, 4) = Return (path, c))
    ∧ visualize_path example_grid path (0, 0) = Return sgrid
    ∧ glyph_at sgrid (0, 0) = "S"%string
    ∧ (path ≠ [] → glyph_at sgrid (4, 4) = "G"%string)
    ∧ ∀ p1 a p2, path = p1 ++ a :: p2 → p1 ≠ [] →
        glyph_at sgrid (fold_left move p1 (0, 0)) = str a
        ∧ cell_at example_grid (fold_left move p1 (0, 0)) ≠ 1.
Proof.
  apply (visualize_uniform_cost example_grid (0, 0) (4, 4)).
  - split; [reflexivity |].
    repeat (apply List.Forall_cons || apply List.Forall_nil); reflexivity.
  - unfold in_bounds, shape0, shape1. simpl. lia.
  - discriminate.
Defined.

(** * Properties of the integer collinearity test *)

Lemma wrap64_shift z : ∃ k, wrap64 z = z + k * 2 ^ 64.
Proof.
  exists (- ((z + 2 ^ 63) / 2 ^ 64)). unfold wrap64.
  pose proof (Z.div_mod (z + 2 ^ 63) (2 ^ 64) ltac:(lia)). lia.
Qed.

Lemma wrap64_range z : - 2 ^ 63 ≤ wrap64 z < 2 ^ 63.
Proof.
  unfold wrap64. pose proof (Z.mod_pos_bound (z + 2 ^ 63) (2 ^ 64) ltac:(lia)).
  lia.
Qed.

Lemma wrap64_zero z : wrap64 z = 0 ↔ z mod 2 ^ 64 = 0.
Proof.
  destruct (wrap64_shift z) as [k Hk]. pose proof (wrap64_range z) as Hr.
  split.
  - intros H0. rewrite H0 in Hk.
    replace z with (0 + (- k) * 2 ^ 64) by lia.
    by rewrite Z.mod_add by lia.
  - intros Hm. apply Z.mod_divide in Hm as [q Hq]; [| lia].
    subst z. lia.
Qed.

Lemma item_0 p : item p 0 = match p with [] => Raise IndexError | x :: _ => Return x end.
Proof.
  unfold item, np_index. destruct p as [| x p]; [done |].
  assert ((0 <? Z.of_nat (length (x :: p))) = true) as ->
    by (apply Z.ltb_lt; simpl length; lia).
  done.
Qed.

Lemma item_1 p :
  item p 1 = match p with _ :: y :: _ => Return y | _ => Raise IndexError end.
Proof.
  unfold item, np_index. destruct p as [| x [| y p]]; [done | done |].
  assert ((1 <? Z.of_nat (length (x :: y :: p))) = true) as ->
    by (apply Z.ltb_lt; simpl length; lia).
  done.
Qed.

(** On arrays of two or more entries the answer is whether the exact
    determinant is a multiple of [2^64]. *)
Lemma collinearity_2D_mod x1 y1 r1 x2 y2 r2 x3 y3 r3 :
  collinearity_2D (x1 :: y1 :: r1) (x2 :: y2 :: r2) (x3 :: y3 :: r3)
  = Return (det3 x1 y1 x2 y2 x3 y3 mod 2 ^ 64 =? 0).
Proof.
  unfold collinearity_2D. rewrite !item_0, !item_1. cbn [mbind result_bind].
  f_equal. apply eq_true_iff_eq. rewrite !Z.eqb_eq, wrap64_zero.
  set (M := 2 ^ 64).
  destruct (wrap64_shift (y2 - y3)) as [k1 ->].
  destruct (wrap64_shift (y3 - y1)) as [k2 ->].
  destruct (wrap64_shift (y1 - y2)) as [k3 ->].
  destruct (wrap64_shift (x1 * (y2 - y3 + k1 * 2 ^ 64))) as [k4 ->].
  destruct (wrap64_shift (x2 * (y3 - y1 + k2 * 2 ^ 64))) as [k5 ->].
  destruct (wrap64_shift (x3 * (y1 - y2 + k3 * 2 ^ 64))) as [k6 ->].
  match goal with |- context [wrap64 ?z] =>
    destruct (wrap64_shift z) as [k7 ->] end.
  fold M.
  replace (_ + k7 * M + _)
    with (det3 x1 y1 x2 y2 x3 y3
          + (x1 * k1 + x2 * k2 + x3 * k3 + k4 + k5 + k6 + k7) * M)
    by (unfold det3; ring).
  by rewrite Z.mod_add by (unfold M; lia).
Qed.

Lemma mod_zero_opp d : (- d) mod 2 ^ 64 = 0 ↔ d mod 2 ^ 64 = 0.
Proof.
  rewrite !Z.mod_divide by lia. split; intros [q Hq]; exists (- q); lia.
Qed.

(** The call returns exactly when each array has two entries or more. *)
Lemma collinearity_2D_raises (p1 p2 p3 : list Z) :
  ((2 ≤ length p1)%nat ∧ (2 ≤ length p2)%nat ∧ (2 ≤ length p3)%nat →
   ∃ b, collinearity_2D p1 p2 p3 = Return b)
  ∧ (¬ ((2 ≤ length p1)%nat ∧ (2 ≤ length p2)%nat ∧ (2 ≤ length p3)%nat) →
     collinearity_2D p1 p2 p3 = Raise IndexError).
Proof.
  split.
  - intros (H1 & H2 & H3).
    destruct p1 as [| x1 [| y1 r1]]; simpl in H1; try lia.
    destruct p2 as [| x2 [| y2 r2]]; simpl in H2; try lia.
    destruct p3 as [| x3 [| y3 r3]]; simpl in H3; try lia.
    rewrite collinearity_2D_mod. eauto.
  - intros Hn. unfold collinearity_2D. rewrite !item_0, !item_1.
    destruct p1 as [| x1 [| y1 r1]]; try done;
      destruct p2 as [| x2 [| y2 r2]]; try done;
      destruct p3 as [| x3 [| y3 r3]]; try done.
    exfalso. apply Hn. simpl. lia.
Qed.

(** X14. [collinearity_2D] returns a truth value exactly when each of the
    three arrays has two entries or more (entries past the second are
    never read); on a shorter array it raises [IndexError]. *)
Theorem collinearity_2D_index_error (p1 p2 p3 : list Z) :
  ((2 ≤ length p1)%nat ∧ (2 ≤ length p2)%nat ∧ (2 ≤ length p3)%nat →
   ∃ b, collinearity_2D p1 p2 p3 = Return b)
  ∧ (¬ ((2 ≤ length p1)%nat ∧ (2 ≤ length p2)%nat ∧ (2 ≤ length p3)%nat) →
     collinearity_2D p1 p2 p3 = Raise IndexError).
Proof.
  exact (collinearity_2D_raises p1 p2 p3).
Qed.

Lemma collinearity_2D_index_error_witness :
  (∃ b, collinearity_2D [1; 2] [2; 3] [3; 4] = Return b)
  ∧ collinearity_2D [1; 2] [2] [3; 4] = Raise IndexError.
Proof.
  split.
  - apply (proj1 (collinearity_2D_index_error [1; 2] [2; 3] [3; 4])).
    simpl. lia.
  - apply (proj2 (collinearity_2D_index_error [1; 2] [2] [3; 4])).
    simpl. lia.
Defined.

(** X15. For points whose coordinates are at most [2^30] in absolute value
    the [int64] arithmetic does not wrap, and [collinearity_2D] answers
    whether the three points lie on one line: it returns [True] exactly
    when [(x2 - x1) * (y3 - y1) = (x3 - x1) * (y2 - y1)]. *)
Theorem collinearity_2D_exact (x1 y1 x2 y2 x3 y3 : Z) (r1 r2 r3 : list Z) :
  let small := λ v, - 2 ^ 30 ≤ v ≤ 2 ^ 30 in
  small x1 → small y1 → small x2 → small y2 → small x3 → small y3 →
  collinearity_2D (x1 :: y1 :: r1) (x2 :: y2 :: r2) (x3 :: y3 :: r3)
  = Return (bool_decide ((x2 - x1) * (y3 - y1) = (x3 - x1) * (y2 - y1))).
Proof.
  intros small H1 H2 H3 H4 H5 H6. unfold small in *.
  rewrite collinearity_2D_mod. f_equal.
  assert (- 2 ^ 63 < det3 x1 y1 x2 y2 x3 y3 < 2 ^ 63) as Hd.
  { unfold det3.
    assert (∀ x u v, - 2 ^ 30 ≤ x ≤ 2 ^ 30 → - 2 ^ 30 ≤ u ≤ 2 ^ 30 →
              - 2 ^ 30 ≤ v ≤ 2 ^ 30 → - 2 ^ 61 ≤ x * (u - v) ≤ 2 ^ 61) as Hp.
    { intros x u v Hx Hu Hv. nia. }
    pose proof (Hp x1 y2 y3 H1 H4 H6). pose proof (Hp x2 y3 y1 H3 H6 H2).
    pose proof (Hp x3 y1 y2 H5 H2 H4). lia. }
  assert (det3 x1 y1 x2 y2 x3 y3
          = (x2 - x1) * (y3 - y1) - (x3 - x1) * (y2 - y1)) as Hcross
    by (unfold det3; ring).
  apply eq_true_iff_eq. rewrite Z.eqb_eq, bool_decide_eq_true.
  rewrite Z.mod_divide by lia. split.
  - intros [q Hq]. lia.
  - intros Heq. exists 0. lia.
Qed.

Lemma collinearity_2D_exact_witness :
  collinearity_2D [1; 2] [2; 3] [3; 4]
  = Return (bool_decide ((2 - 1) * (4 - 2) = (3 - 1) * (3 - 2))).
Proof.
  apply (collinearity_2D_exact 1 2 2 3 3 4 [] [] []); lia.
Defined.

(** X16. The answer of [collinearity_2D] (truth value or error) does not
    depend on the order of the three points: exchanging two of them or
    rotating them gives the same result, also where the arithmetic
    wraps. *)
Theorem collinearity_2D_permute (p1 p2 p3 : list Z) :
  collinearity_2D p2 p1 p3 = collinearity_2D p1 p2 p3
  ∧ collinearity_2D p2 p3 p1 = collinearity_2D p1 p2 p3.
Proof.
  destruct (decide ((2 ≤ length p1)%nat ∧ (2 ≤ length p2)%nat
                    ∧ (2 ≤ length p3)%nat)) as [(H1 & H2 & H3) | Hn].
  - destruct p1 as [| x1 [| y1 r1]]; simpl in H1; try lia.
    destruct p2 as [| x2 [| y2 r2]]; simpl in H2; try lia.
    destruct p3 as [| x3 [| y3 r3]]; simpl in H3; try lia.
    rewrite !collinearity_2D_mod. split; f_equal.
    + replace (det3 x2 y2 x1 y1 x3 y3) with (- det3 x1 y1 x2 y2 x3 y3)
        by (unfold det3; ring).
      apply eq_true_iff_eq. rewrite !Z.eqb_eq. apply mod_zero_opp.
    + by replace (det3 x2 y2 x3 y3 x1 y1) with (det3 x1 y1 x2 y2 x3 y3)
        by (unfold det3; ring).
  - rewrite (proj2 (collinearity_2D_raises p1 p2 p3) Hn).
    rewrite (proj2 (collinearity_2D_raises p2 p1 p3)) by tauto.
    rewrite (proj2 (collinearity_2D_raises p2 p3 p1)) by tauto.
    done.
Qed.

(** X17. Where the [int64] arithmetic wraps the test can be wrong: for
    non-zero [int64] values [a] and [b] whose product is a multiple of
    [2^64] (for instance [a = b = 2^32]), the points (0,0), (a,0) and (0,b)
    form a right angle, yet [collinearity_2D] returns [True]. *)
Theorem collinearity_2D_wraps (a b : Z) :
  - 2 ^ 63 ≤ a < 2 ^ 63 → - 2 ^ 63 ≤ b < 2 ^ 63 →
  a ≠ 0 → b ≠ 0 → (2 ^ 64 | a * b) →
  collinearity_2D [0; 0] [a; 0] [0; b] = Return true
  ∧ (a - 0) * (b - 0) ≠ (0 - 0) * (0 - 0).
Proof.
  intros _ _ Ha Hb Hdiv. split; [| nia].
  rewrite collinearity_2D_mod. f_equal. apply Z.eqb_eq.
  apply Z.mod_divide; [lia |].
  by replace (det3 0 0 a 0 0 b) with (a * b) by (unfold det3; ring).
Qed.

Lemma collinearity_2D_wraps_witness :
  collinearity_2D [0; 0] [2 ^ 32; 0] [0; 2 ^ 32] = Return true
  ∧ (2 ^ 32 - 0) * (2 ^ 32 - 0) ≠ (0 - 0) * (0 - 0).
Proof.
  apply (collinearity_2D_wraps (2 ^ 32) (2 ^ 32)); try lia.
  exists 1. reflexivity.
Defined.

(** X18. Moving the three points by the same offset, with the [int64]
    additions wrapping where they overflow, does not change the answer of
    [collinearity_2D]. *)
Theorem collinearity_2D_translate (x1 y1 x2 y2 x3 y3 dx dy : Z) :
  collinearity_2D [wrap64 (x1 + dx); wrap64 (y1 + dy)]
    [wrap64 (x2 + dx); wrap64 (y2 + dy)] [wrap64 (x3 + dx); wrap64 (y3 + dy)]
  = collinearity_2D [x1; y1] [x2; y2] [x3; y3].
Proof.
  rewrite !collinearity_2D_mod. f_equal. f_equal.
  destruct (wrap64_shift (x1 + dx)) as [k1 ->].
  destruct (wrap64_shift (x2 + dx)) as [k2 ->].
  destruct (wrap64_shift (x3 + dx)) as [k3 ->].
  destruct (wrap64_shift (y1 + dy)) as [l1 ->].
  destruct (wrap64_shift (y2 + dy)) as [l2 ->].
  destruct (wrap64_shift (y3 + dy)) as [l3 ->].
  set (M := 2 ^ 64).
  replace (det3 _ _ _ _ _ _)
    with (det3 x1 y1 x2 y2 x3 y3
          + (k1 * (y2 - y3) + k2 * (y3 - y1) + k3 * (y1 - y2)
             + x1 * (l2 - l3) + x2 * (l3 - l1) + x3 * (l1 - l2)
             + M * (k1 * (l2 - l3) + k2 * (l3 - l1) + k3 * (l1 - l2))) * M)
    by (unfold det3; ring).
  by rewrite Z.mod_add by (unfold M; lia).
Qed.
